(** * custom::map over a balanced search tree

    A shallow embedding of [map.h] (namespace [custom]): the map layer, its
    iterator and the operations it delegates to the tree engine.

    The sources hold two copies of the header.  In one of them
    [operator[]] and [at] are written out, [insert] passes [keepUnique]
    and [<stdexcept>] is included: module [Map] embeds that copy.  In the
    other one the accessors are placeholders: module [Skeleton] records
    them.  Everything else is the same in both.

    [map.h] includes [pair.h] and [bst.h]; neither header is part of the
    sources.  The pair holder and the tree engine are therefore modelled
    from the written specification (sections 3, 4.1 and 4.2), and every
    definition obtained that way says so in its documentation.

    A tree is a value here: a node is known by the path that leads to it
    from the root, an iterator holds such a path, and a reference to a
    stored value is read and written through the map it points into. *)

From Stdlib Require Import List Bool Arith Lia Sorted.
From Stdlib Require String.
Import String.StringSyntax.
Open Scope string_scope.
Open Scope list_scope.
Import ListNotations.

(** ** Template parameters *)

(** The key type [K] of [map<K, V>] comes with [operator<] and [operator==]. *)
Class Comparable (K : Type) := {
  lt_key : K -> K -> bool;
  eq_key : K -> K -> bool;
  eq_key_spec : forall a b, eq_key a b = true <-> a = b;
  lt_key_irrefl : forall a, lt_key a a = false;
  lt_key_trans : forall a b c,
      lt_key a b = true -> lt_key b c = true -> lt_key a c = true;
  lt_key_total : forall a b,
      lt_key a b = false -> lt_key b a = false -> a = b
}.

(** The mapped type [V] is default constructible ([V()]). *)
Class DefaultConstructible (V : Type) := { construct : V }.

#[export] Instance nat_Comparable : Comparable nat := {|
  lt_key := Nat.ltb;
  eq_key := Nat.eqb;
  eq_key_spec := Nat.eqb_eq;
  lt_key_irrefl := Nat.ltb_irrefl;
  lt_key_trans := fun a b c Hab Hbc =>
    proj2 (Nat.ltb_lt a c)
      (Nat.lt_trans a b c (proj1 (Nat.ltb_lt a b) Hab) (proj1 (Nat.ltb_lt b c) Hbc));
  lt_key_total := fun a b Hab Hba =>
    Nat.le_antisymm a b (proj1 (Nat.ltb_ge b a) Hba) (proj1 (Nat.ltb_ge a b) Hab)
|}.

#[export] Instance nat_DefaultConstructible : DefaultConstructible nat :=
  {| construct := 0 |}.

(** ** The pair holder *)

(** Modelled from the spec: [pair.h] is missing.  Section 6 lists what the
    map consumes from it: a key-only constructor, a key+value constructor,
    ordering by key and equality by key. *)
Record Pair (K V : Type) := make_pair { first : K; second : V }.
Arguments make_pair {K V} _ _.
Arguments first {K V} _.
Arguments second {K V} _.

(** Modelled from the spec: the key-only constructor [pair(k)] of the missing
    [pair.h]; the value is default constructed. *)
Definition Pair_of_key {K V} `{DefaultConstructible V} (k : K) : Pair K V :=
  make_pair k construct.

(** Modelled from the spec: [operator<] of the missing [pair.h] orders by key. *)
Definition pair_lt {K V} `{Comparable K} (a b : Pair K V) : bool :=
  lt_key (first a) (first b).

(** Modelled from the spec: [operator==] of the missing [pair.h] compares keys. *)
Definition pair_eq {K V} `{Comparable K} (a b : Pair K V) : bool :=
  eq_key (first a) (first b).

(** ** Methods: state passing with exceptions *)

Inductive exception : Type :=
| out_of_range (what : String.string).

Inductive outcome (A : Type) : Type :=
| Return (a : A)
| Throw (e : exception).
Arguments Return {A} _.
Arguments Throw {A} _.

(** A method of an object of type [S]: it runs on the object's state and
    hands back a result (or a thrown exception) with the state after the call. *)
Definition method (S A : Type) : Type := S -> outcome A * S.

Definition ret {S A : Type} (a : A) : method S A := fun s => (Return a, s).

Definition throw {S A : Type} (e : exception) : method S A :=
  fun s => (Throw e, s).

Definition bind {S A B : Type} (c : method S A) (k : A -> method S B)
  : method S B :=
  fun s =>
    match c s with
    | (Return a, s') => k a s'
    | (Throw e, s') => (Throw e, s')
    end.

Declare Scope method_scope.
Delimit Scope method_scope with method.
Notation "x <- c ;; k" := (bind c (fun x => k))
  (at level 61, c at next level, right associativity) : method_scope.
Notation "c ;; k" := (bind c (fun _ => k))
  (at level 61, right associativity) : method_scope.

(** ** The tree engine *)

Module BST.

Inductive color : Type := Red | Black.

(** Modelled from the spec: the node of the missing [bst.h] (section 3).  A
    node holds one element, the colour marker and its two children; a null
    child is [Leaf].  The parent back-reference is not stored: a node is
    addressed by the path that leads to it from the root, and its parent is
    the path without its last step. *)
Inductive BNode (T : Type) : Type :=
| Leaf
| Node (c : color) (pLeft : BNode T) (data : T) (pRight : BNode T).
Arguments Leaf {T}.
Arguments Node {T} _ _ _ _.

Inductive direction : Type := L | R.

Definition path : Type := list direction.

(** Modelled from the spec: the tree of the missing [bst.h] (section 3) owns
    the root and tracks the element count. *)
Record BST (T : Type) : Type := { root : BNode T; numElements : nat }.
Arguments root {T} _.
Arguments numElements {T} _.

(** Modelled from the spec: the tree iterator of the missing [bst.h]
    (section 4.2): a reference to the current node, or null for end. *)
Record iterator : Type := { pNode : option path }.

Definition direction_eqb (a b : direction) : bool :=
  match a, b with
  | L, L | R, R => true
  | _, _ => false
  end.

Fixpoint path_eqb (p q : path) : bool :=
  match p, q with
  | [], [] => true
  | a :: p', b :: q' => direction_eqb a b && path_eqb p' q'
  | _, _ => false
  end.

(** Modelled from the spec: two iterators are equal iff they reference the
    same node or are both end (section 4.2). *)
Definition iterator_eq (a b : iterator) : bool :=
  match pNode a, pNode b with
  | None, None => true
  | Some p, Some q => path_eqb p q
  | _, _ => false
  end.

Definition iterator_ne (a b : iterator) : bool := negb (iterator_eq a b).

Section Structure.
Context {T : Type}.

Fixpoint subtree (t : BNode T) (p : path) : BNode T :=
  match p, t with
  | [], _ => t
  | L :: q, Node _ l _ _ => subtree l q
  | R :: q, Node _ _ _ r => subtree r q
  | _ :: _, Leaf => Leaf
  end.

(** [pNode->data] *)
Definition data_at (t : BNode T) (p : path) : option T :=
  match subtree t p with
  | Node _ _ d _ => Some d
  | Leaf => None
  end.

(** The in-order sequence of the elements. *)
Fixpoint elements (t : BNode T) : list T :=
  match t with
  | Leaf => []
  | Node _ l d r => elements l ++ d :: elements r
  end.

Fixpoint count (t : BNode T) : nat :=
  match t with
  | Leaf => 0
  | Node _ l _ r => count l + 1 + count r
  end.

(** Number of nodes on the longest path from the root down. *)
Fixpoint height (t : BNode T) : nat :=
  match t with
  | Leaf => 0
  | Node _ l _ r => 1 + Nat.max (height l) (height r)
  end.

(** Position of the node at path [p] in the in-order sequence. *)
Fixpoint rank (t : BNode T) (p : path) : nat :=
  match p, t with
  | L :: q, Node _ l _ _ => rank l q
  | R :: q, Node _ l _ r => count l + 1 + rank r q
  | _, Node _ l _ _ => count l
  | _, Leaf => 0
  end.

Definition color_of (t : BNode T) : color :=
  match t with
  | Node c _ _ _ => c
  | Leaf => Black
  end.

Definition paint (c : color) (t : BNode T) : BNode T :=
  match t with
  | Leaf => Leaf
  | Node _ l d r => Node c l d r
  end.

Definition is_leaf (t : BNode T) : bool :=
  match t with
  | Leaf => true
  | Node _ _ _ _ => false
  end.

(** *** Rebalancing: rotations with colour fix-ups

    Modelled from the spec: section 4.1 asks for rotations and colour
    fix-ups after every structural change and leaves the scheme open; the
    README names red-black balancing.  The fix-ups run on the way back up
    from the point of change. *)

(** The left subtree may carry a red node with a red child. *)
Definition balance_left (l : BNode T) (d : T) (r : BNode T) : BNode T :=
  match l with
  | Node Red (Node Red t1 x t2) y t3 =>
      Node Red (Node Black t1 x t2) y (Node Black t3 d r)
  | Node Red t1 x (Node Red t2 y t3) =>
      Node Red (Node Black t1 x t2) y (Node Black t3 d r)
  | _ => Node Black l d r
  end.

(** The right subtree may carry a red node with a red child. *)
Definition balance_right (l : BNode T) (d : T) (r : BNode T) : BNode T :=
  match r with
  | Node Red t2 y (Node Red t3 z t4) =>
      Node Red (Node Black l d t2) y (Node Black t3 z t4)
  | Node Red (Node Red t2 y t3) z t4 =>
      Node Red (Node Black l d t2) y (Node Black t3 z t4)
  | _ => Node Black l d r
  end.

(** The left subtree lost one black level. *)
Definition fix_left (l : BNode T) (d : T) (r : BNode T) : BNode T :=
  match l with
  | Node Red t1 x t2 => Node Red (Node Black t1 x t2) d r
  | _ =>
      match r with
      | Node Black t2 y t3 => balance_right l d (Node Red t2 y t3)
      | Node Red (Node Black t2 y t3) z t4 =>
          Node Red (Node Black l d t2) y (balance_right t3 z (paint Red t4))
      | _ => Node Red l d r
      end
  end.

(** The right subtree lost one black level. *)
Definition fix_right (l : BNode T) (d : T) (r : BNode T) : BNode T :=
  match r with
  | Node Red t2 y t3 => Node Red l d (Node Black t2 y t3)
  | _ =>
      match l with
      | Node Black t1 x t2 => balance_left (Node Red t1 x t2) d r
      | Node Red t1 x (Node Black t2 y t3) =>
          Node Red (balance_left (paint Red t1) x t2) y (Node Black t3 d r)
      | _ => Node Red l d r
      end
  end.

(** *** The balance invariant (section 3) *)

(** Black nodes on the leftmost path. *)
Fixpoint black_height (t : BNode T) : nat :=
  match t with
  | Leaf => 0
  | Node Black l _ _ => S (black_height l)
  | Node Red l _ _ => black_height l
  end.

(** No red node has a red child. *)
Fixpoint no_red_red (t : BNode T) : Prop :=
  match t with
  | Leaf => True
  | Node c l _ r =>
      no_red_red l /\ no_red_red r /\
      (c = Red -> color_of l = Black /\ color_of r = Black)
  end.

(** Every path from a node down to a leaf crosses as many black nodes. *)
Fixpoint even_black (t : BNode T) : Prop :=
  match t with
  | Leaf => True
  | Node _ l _ r =>
      even_black l /\ even_black r /\ black_height l = black_height r
  end.

Definition red_black (t : BNode T) : Prop :=
  no_red_red t /\ even_black t /\ color_of t = Black.

(** The state of a subtree in the middle of a fix-up: its root may be red
    with a red child, nothing else is out of place. *)
Definition no_red_red_below (t : BNode T) : Prop := no_red_red (paint Black t).

(** What removing a node from [t] leaves, before the parent's fix-up: a red
    [t] keeps its black height and stays in order; a black [t] loses one
    black level and its new root may be red with a red child. *)
Definition removal_result (t t' : BNode T) : Prop :=
  even_black t' /\
  (color_of t = Red -> black_height t' = black_height t /\ no_red_red t') /\
  (color_of t = Black ->
   black_height t' = black_height t - 1 /\ no_red_red_below t').

(** *** Walking the tree *)

(** Leftmost descendant of [t], as a path from [t]. *)
Fixpoint leftmost (t : BNode T) : option path :=
  match t with
  | Leaf => None
  | Node _ l _ _ =>
      match leftmost l with
      | Some q => Some (L :: q)
      | None => Some []
      end
  end.

Fixpoint rightmost (t : BNode T) : option path :=
  match t with
  | Leaf => None
  | Node _ _ _ r =>
      match rightmost r with
      | Some q => Some (R :: q)
      | None => Some []
      end
  end.

(** Ascend through the parent links until a node is reached that is a left
    child of its parent; the result is that parent. *)
Fixpoint ascend_from_left (p : path) : option path :=
  match p with
  | [] => None
  | d :: q =>
      match ascend_from_left q with
      | Some a => Some (d :: a)
      | None =>
          match d with
          | L => Some []
          | R => None
          end
      end
  end.

Fixpoint ascend_from_right (p : path) : option path :=
  match p with
  | [] => None
  | d :: q =>
      match ascend_from_right q with
      | Some a => Some (d :: a)
      | None =>
          match d with
          | R => Some []
          | L => None
          end
      end
  end.

(** Modelled from the spec: in-order successor (section 4.2).  If a right
    child exists, descend to its leftmost descendant; otherwise ascend until
    a node is a left child of its parent; none such is end. *)
Definition successor (t : BNode T) (p : path) : option path :=
  match subtree t p with
  | Leaf => None
  | Node _ _ _ r =>
      match leftmost r with
      | Some q => Some (p ++ R :: q)
      | None => ascend_from_left p
      end
  end.

(** Modelled from the spec: in-order predecessor, symmetric (section 4.2). *)
Definition predecessor (t : BNode T) (p : path) : option path :=
  match subtree t p with
  | Leaf => None
  | Node _ l _ _ =>
      match rightmost l with
      | Some q => Some (p ++ L :: q)
      | None => ascend_from_right p
      end
  end.

(** Modelled from the spec: [operator++] of the tree iterator.  The null
    iterator has no node to start from and stays null. *)
Definition increment (t : BNode T) (it : iterator) : iterator :=
  {| pNode := match pNode it with
              | Some p => successor t p
              | None => None
              end |}.

(** Modelled from the spec: [operator--] of the tree iterator. *)
Definition decrement (t : BNode T) (it : iterator) : iterator :=
  {| pNode := match pNode it with
              | Some p => predecessor t p
              | None => None
              end |}.

(** Modelled from the spec: [operator*] of the tree iterator; dereferencing
    end is undefined and yields nothing here. *)
Definition dereference (t : BNode T) (it : iterator) : option T :=
  match pNode it with
  | Some p => data_at t p
  | None => None
  end.

(** *** Removal at a node *)

(** Detach the leftmost node of a non-empty tree: its element and the
    remainder, which has lost one black level when [t] was black. *)
Fixpoint split_min (t : BNode T) : option (T * BNode T) :=
  match t with
  | Leaf => None
  | Node _ l d r =>
      match split_min l with
      | None => Some (d, r)
      | Some (x, l') =>
          Some (x, match color_of l with
                   | Black => fix_left l' d r
                   | Red => Node Red l' d r
                   end)
      end
  end.

(** Remove the node itself: (a) a leaf is detached, (b) an only child is
    promoted, (c) with two children the element of the in-order successor
    takes the place and the successor's node is removed. *)
Definition remove_root (l : BNode T) (d : T) (r : BNode T) : BNode T :=
  match l, r with
  | Leaf, Leaf => Leaf
  | _, Leaf => l
  | Leaf, _ => r
  | _, _ =>
      match split_min r with
      | Some (x, r') =>
          match color_of r with
          | Black => fix_right l x r'
          | Red => Node Red l x r'
          end
      | None => l
      end
  end.

(** Remove the node at path [p], fixing colours from the removal point
    upward. *)
Fixpoint remove_at (p : path) (t : BNode T) {struct t} : BNode T :=
  match t with
  | Leaf => Leaf
  | Node _ l d r =>
      match p with
      | [] => remove_root l d r
      | L :: q =>
          let l' := remove_at q l in
          if negb (is_leaf l) && match color_of l with Black => true | Red => false end
          then fix_left l' d r
          else Node Red l' d r
      | R :: q =>
          let r' := remove_at q r in
          if negb (is_leaf r) && match color_of r with Black => true | Red => false end
          then fix_right l d r'
          else Node Red l d r'
      end
  end.

End Structure.

Section Ordered.
Context {K V : Type} `{Comparable K}.
#[local] Abbreviation T := (Pair K V).

(** Modelled from the spec: the descent of [find] (section 4.1), by
    comparison of keys. *)
Fixpoint find_path (t : BNode T) (e : T) : option path :=
  match t with
  | Leaf => None
  | Node _ l d r =>
      if pair_eq e d then Some []
      else if pair_lt e d then option_map (cons L) (find_path l e)
      else option_map (cons R) (find_path r e)
  end.

(** Attach a new red node at the leaf position the descent reaches; an equal
    key is passed on its right. *)
Fixpoint ins (e : T) (t : BNode T) : BNode T :=
  match t with
  | Leaf => Node Red Leaf e Leaf
  | Node Black l d r =>
      if pair_lt e d then balance_left (ins e l) d r
      else balance_right l d (ins e r)
  | Node Red l d r =>
      if pair_lt e d then Node Red (ins e l) d r
      else Node Red l d (ins e r)
  end.

(** The in-order last node whose key is not greater than the key of [e]:
    where a node attached by [ins] sits. *)
Fixpoint last_not_greater (t : BNode T) (e : T) : option path :=
  match t with
  | Leaf => None
  | Node _ l d r =>
      if pair_lt e d then option_map (cons L) (last_not_greater l e)
      else
        match last_not_greater r e with
        | Some q => Some (R :: q)
        | None => Some []
        end
  end.

Definition empty_tree : BST T := {| root := Leaf; numElements := 0 |}.

Definition size (b : BST T) : nat := numElements b.

Definition empty (b : BST T) : bool := Nat.eqb (size b) 0.

(** Modelled from the spec: [begin()] is the leftmost node, or end. *)
Definition begin (b : BST T) : iterator := {| pNode := leftmost (root b) |}.

(** Modelled from the spec: [end()] is the null iterator. *)
Definition end_ (b : BST T) : iterator := {| pNode := None |}.

(** Modelled from the spec: [find(element)] of the missing [bst.h]. *)
Definition find (b : BST T) (e : T) : iterator :=
  {| pNode := find_path (root b) e |}.

(** Modelled from the spec: [insert(element, keepUnique)] of the missing
    [bst.h] (section 4.1).  With [keepUnique] and an equal key in the tree:
    an iterator to that node and [false], nothing created.  Otherwise a new
    node is attached and rebalanced, the root is black again, the count
    grows, and the result is an iterator to the new node and [true]. *)
Definition insert (b : BST T) (e : T) (keepUnique : bool)
  : (iterator * bool) * BST T :=
  match (if keepUnique then find_path (root b) e else None) with
  | Some p => (({| pNode := Some p |}, false), b)
  | None =>
      let root' := paint Black (ins e (root b)) in
      (({| pNode := last_not_greater root' e |}, true),
       {| root := root'; numElements := S (numElements b) |})
  end.

(** Modelled from the spec: [erase(iterator)] of the missing [bst.h]
    (section 4.1).  At end nothing happens.  Otherwise the node is removed,
    the count drops, and the result is an iterator to the in-order
    successor of the removed node, or end. *)
Definition erase (b : BST T) (it : iterator) : iterator * BST T :=
  match pNode it with
  | None => (end_ b, b)
  | Some p =>
      match data_at (root b) p with
      | None => (end_ b, b)
      | Some _ =>
          let next := dereference (root b) (increment (root b) it) in
          let root' := paint Black (remove_at p (root b)) in
          ({| pNode := match next with
                       | Some e => find_path root' e
                       | None => None
                       end |},
           {| root := root'; numElements := numElements b - 1 |})
      end
  end.

(** Modelled from the spec: [clear()] releases all nodes. *)
Definition clear (b : BST T) : BST T := empty_tree.

(** Modelled from the spec: copying clones every node. *)
Definition copy (rhs : BST T) : BST T :=
  {| root := root rhs; numElements := numElements rhs |}.

(** Modelled from the spec: moving steals root and count and leaves the
    source empty.  The result is the destination and the source. *)
Definition move (rhs : BST T) : BST T * BST T :=
  ({| root := root rhs; numElements := numElements rhs |}, empty_tree).

(** The binary-search-order invariant (section 3): the in-order sequence
    has strictly increasing keys. *)
Fixpoint sorted_keys (l : list K) : bool :=
  match l with
  | [] => true
  | a :: rest =>
      match rest with
      | [] => true
      | b :: _ => lt_key a b && sorted_keys rest
      end
  end.

Definition ordered (t : BNode T) : bool :=
  sorted_keys (List.map first (elements t)).

End Ordered.

End BST.

(** ** The map layer *)

Module Map.

(** [BST bst;] is the only member of [map]. *)
Record map (K V : Type) : Type := { bst : BST.BST (Pair K V) }.
Arguments bst {K V} _.

(** [typename BST::iterator it;] is the only member of [map::iterator]. *)
Record iterator : Type := { it : BST.iterator }.

(** A [V&] handed out by the map: the [data.second] of the node a tree
    iterator points at, or the [second] of a pair local to the call. *)
Inductive reference (K V : Type) : Type :=
| node_second (pNode : option BST.path)
| local_second (pair : Pair K V).
Arguments node_second {K V} _.
Arguments local_second {K V} _.

Section Methods.
Context {K V : Type} `{Comparable K} `{DefaultConstructible V}.
#[local] Abbreviation map := (map K V).
#[local] Abbreviation Pair := (Pair K V).
#[local] Abbreviation reference := (reference K V).
#[local] Open Scope method_scope.

(** [map()] *)
Definition empty_map : map := {| bst := BST.empty_tree |}.

(** [map(const map& rhs) : bst(rhs.bst)] *)
Definition copy_construct (rhs : map) : map := {| bst := BST.copy (bst rhs) |}.

(** [map(map&& rhs) : bst(std::move(rhs.bst))]; the result is the new map
    and the state of [rhs] afterwards. *)
Definition move_construct (rhs : map) : map * map :=
  let '(b, rest) := BST.move (bst rhs) in
  ({| bst := b |}, {| bst := rest |}).

(** [iterator::operator ==] and [iterator::operator !=] *)
Definition iterator_eq (a b : iterator) : bool := BST.iterator_eq (it a) (it b).
Definition iterator_ne (a b : iterator) : bool := BST.iterator_ne (it a) (it b).

(** [iterator::operator *]; nothing at end. *)
Definition dereference (m : map) (i : iterator) : option Pair :=
  BST.dereference (BST.root (bst m)) (it i).

(** [begin()] *)
Definition begin : method map iterator :=
  fun m => (Return {| it := BST.begin (bst m) |}, m).

(** [end()] *)
Definition end_ : method map iterator :=
  fun m => (Return {| it := BST.end_ (bst m) |}, m).

(** [find(const K& k)] *)
Definition find (k : K) : method map iterator :=
  fun m =>
    let searchPair : Pair := Pair_of_key k in
    (Return {| it := BST.find (bst m) searchPair |}, m).

(** [insert(const Pair& rhs)] and [insert(Pair&& rhs)] *)
Definition insert (rhs : Pair) : method map (iterator * bool) :=
  fun m =>
    let '(itBSTPair, bst') := BST.insert (bst m) rhs (* keepUnique: *) true in
    (Return ({| it := fst itBSTPair |}, snd itBSTPair), {| bst := bst' |}).

(** [insert(const std::initializer_list<Pair>& il)] and the range insert:
    one [insert] per element, in order. *)
Fixpoint insert_list (il : list Pair) : method map unit :=
  match il with
  | [] => ret tt
  | elem :: rest => _ <- insert elem ;; insert_list rest
  end.

(** [clear()] *)
Definition clear : method map unit :=
  fun m => (Return tt, {| bst := BST.clear (bst m) |}).

(** [size()] and [empty()] *)
Definition size (m : map) : nat := BST.size (bst m).
Definition empty (m : map) : bool := Nat.eqb (size m) 0.

(** Maps as objects at addresses: a call that involves two maps may be
    handed the same object twice. *)
Definition objects : Type := nat -> map.

Definition update (h : objects) (a : nat) (m : map) : objects :=
  fun x => if Nat.eqb x a then m else h x.

(** A method of the object at address [a]. *)
Definition on_object {A : Type} (a : nat) (f : method map A)
  : method objects A :=
  fun h => let '(r, m') := f (h a) in (r, update h a m').

(** [operator =(map&& rhs)]: [clear()] on the destination [this], then
    [bst = std::move(rhs.bst)], which reads the source as [clear()] left it
    and writes both the destination and the source. *)
Definition move_assign (this rhs : nat) : method objects unit :=
  _ <- on_object this clear ;;
  fun h =>
    let '(b, rest) := BST.move (bst (h rhs)) in
    (Return tt, update (update h this {| bst := b |}) rhs {| bst := rest |}).

(** [swap(map& lhs, map& rhs)] is [std::swap(lhs.bst, rhs.bst)], the
    generic exchange through a temporary: [BST tmp(std::move(a));
    a = std::move(b); b = std::move(tmp);]. *)
Definition swap (lhs rhs : nat) : method objects unit :=
  fun h =>
    let '(tmp, a1) := BST.move (bst (h lhs)) in
    let h1 := update h lhs {| bst := a1 |} in
    let '(a2, b1) := BST.move (bst (h1 rhs)) in
    let h2 := update (update h1 lhs {| bst := a2 |}) rhs {| bst := b1 |} in
    let '(b2, _) := BST.move tmp in
    (Return tt, update h2 rhs {| bst := b2 |}).

(** [operator =(const std::initializer_list<Pair>& il)] *)
Definition assign_list (il : list Pair) : method map unit :=
  _ <- clear ;; insert_list il.

(** [map(const std::initializer_list<Pair>& il)] *)
Definition of_list (il : list Pair) : map := snd (assign_list il empty_map).

(** [V& operator [](const K& key)] *)
Definition subscript (key : K) : method map reference :=
  fun m =>
    let pair : Pair := Pair_of_key key in
    let '(returnValue, bst') := BST.insert (bst m) pair (* keepUnique: *) true in
    let itBST := fst returnValue in
    (Return (node_second (BST.pNode itBST)), {| bst := bst' |}).


(** [V& at(const K& key)] *)
Definition at_ (key : K) : method map reference :=
  at' <- find key ;;
  e <- end_ ;;
  if iterator_ne at' e
  then ret (node_second (BST.pNode (it at')))
  else throw (out_of_range "invalid map<K, T> key").

(** [iterator erase(iterator it)] *)
Definition erase_iterator (i : iterator) : method map iterator :=
  fun m =>
    let '(next, bst') := BST.erase (bst m) (it i) in
    (Return {| it := next |}, {| bst := bst' |}).

(** [size_t erase(const K& k)] *)
Definition erase (k : K) : method map nat :=
  i <- find k ;;
  e <- end_ ;;
  if iterator_ne i e
  then _ <- erase_iterator i ;; ret 1
  else ret 0.

(** [iterator erase(iterator first, iterator last)]; the loop runs on fuel. *)
Fixpoint erase_range (fuel : nat) (first last : iterator)
  : method map (option iterator) :=
  if iterator_ne first last
  then
    match fuel with
    | 0 => ret None
    | S fuel' => next <- erase_iterator first ;; erase_range fuel' next last
    end
  else ret (Some first).

(** Reading through a reference: [None] where the access is undefined. *)
Definition load (m : map) (r : reference) : option V :=
  match r with
  | node_second (Some p) => option_map second (BST.data_at (BST.root (bst m)) p)
  | node_second None => None
  | local_second probe => Some (second probe)
  end.

Fixpoint set_second (t : BST.BNode Pair) (p : BST.path) (v : V)
  : BST.BNode Pair :=
  match t with
  | BST.Leaf => BST.Leaf
  | BST.Node c l d r =>
      match p with
      | [] => BST.Node c l (make_pair (first d) v) r
      | BST.L :: q => BST.Node c (set_second l q v) d r
      | BST.R :: q => BST.Node c l d (set_second r q v)
      end
  end.

(** Assigning through a reference, as in [m[k] = v]. *)
Definition store (r : reference) (v : V) : method map unit :=
  fun m =>
    match r with
    | node_second (Some p) =>
        (Return tt,
         {| bst := {| BST.root := set_second (BST.root (bst m)) p v;
                      BST.numElements := BST.numElements (bst m) |} |})
    | _ => (Return tt, m)
    end.

(** *** The iterator's increments: methods of the iterator object, reading
    the nodes of the map [m] it walks. *)

(** [iterator& operator ++()] *)
Definition pre_increment (m : map) : method iterator iterator :=
  fun self =>
    let self' := {| it := BST.increment (BST.root (bst m)) (it self) |} in
    (Return self', self').

(** [iterator operator ++(int postfix)]: [temp] is returned. *)
Definition post_increment (m : map) : method iterator iterator :=
  fun self =>
    let temp := self in
    let self' := {| it := BST.increment (BST.root (bst m)) (it self) |} in
    (Return temp, self').

(** [iterator& operator --()] *)
Definition pre_decrement (m : map) : method iterator iterator :=
  fun self =>
    let self' := {| it := BST.decrement (BST.root (bst m)) (it self) |} in
    (Return self', self').

(** [iterator operator --(int postfix)]: [temp] is made, and [*this] is
    returned. *)
Definition post_decrement (m : map) : method iterator iterator :=
  fun self =>
    let temp := self in
    let self' := {| it := BST.decrement (BST.root (bst m)) (it self) |} in
    (Return self', self').

(** The client loop from [begin()] to [end()] with [++it], on fuel:
    the elements visited, or [None] when the fuel runs out or end is
    dereferenced. *)
Fixpoint visit_from (fuel : nat) (m : map) (i : iterator) : option (list Pair) :=
  if iterator_ne i {| it := BST.end_ (bst m) |}
  then
    match fuel with
    | 0 => None
    | S fuel' =>
        match dereference m i with
        | None => None
        | Some e =>
            option_map (cons e)
              (visit_from fuel' m (snd (pre_increment m i)))
        end
    end
  else Some [].

Definition traverse (fuel : nat) (m : map) : option (list Pair) :=
  visit_from fuel m {| it := BST.begin (bst m) |}.

(** The elements a full traversal is to give, in key order. *)
Definition to_list (m : map) : list Pair := BST.elements (BST.root (bst m)).

Definition keys (l : list Pair) : list K := List.map first l.

(** The map read as an association list: the value stored under a key. *)
Definition lookup (l : list Pair) (k : K) : option V :=
  option_map second (List.find (fun e => eq_key (first e) k) l).

Definition value_of (m : map) (k : K) : option V := lookup (to_list m) k.

(** The state every operation expects and leaves: keys in search order, and
    the count equal to the number of nodes. *)
Definition consistent (m : map) : bool :=
  BST.ordered (BST.root (bst m))
  && Nat.eqb (BST.numElements (bst m)) (BST.count (BST.root (bst m))).

(** The balance invariant of the tree the map owns. *)
Definition balanced (m : map) : Prop := BST.red_black (BST.root (bst m)).

(** Client calls that change a map. *)
Inductive operation : Type :=
| call_insert (rhs : Pair)
| call_subscript (key : K)
| call_assign (key : K) (v : V)
| call_erase (key : K)
| call_erase_at (i : iterator)
| call_clear.

Definition perform (op : operation) (m : map) : map :=
  match op with
  | call_insert rhs => snd (insert rhs m)
  | call_subscript key => snd (subscript key m)
  | call_assign key v => snd ((r <- subscript key ;; store r v) m)
  | call_erase key => snd (erase key m)
  | call_erase_at i => snd (erase_iterator i m)
  | call_clear => snd (clear m)
  end.

Definition run (ops : list operation) (m : map) : map :=
  fold_left (fun acc op => perform op acc) ops m.

End Methods.

End Map.

(** ** The header with placeholder accessors

    A second copy of [map.h] has the same class with the bodies of
    [operator[]] and [at] still left as the placeholder
    [return *(new V);].  The embedding above is the copy in which they are
    written out; the placeholders are kept here for comparison. *)

Module Skeleton.

(** [*(new V)]: a value on the heap that belongs to no map. *)
Inductive reference : Type := heap_value.

Section Accessors.
Context {K V : Type}.

(** [V& operator [](const K& key) { return *(new V); }] *)
Definition subscript (key : K) : method (Map.map K V) reference :=
  fun m => (Return heap_value, m).

(** [V& at(const K& key) { return *(new V); }] *)
Definition at_ (key : K) : method (Map.map K V) reference :=
  fun m => (Return heap_value, m).

End Accessors.

End Skeleton.

(** ** Worked examples *)

Definition fruit : Map.map nat nat :=
  Map.of_list [make_pair 5 50; make_pair 3 30; make_pair 8 80; make_pair 1 10].

(** Two objects: [fruit] at address 0 and an empty map everywhere else. *)
Definition shelf : @Map.objects nat nat :=
  fun a =>
    match a with
    | 0 => fruit
    | _ => Map.empty_map
    end.

(** The keys 1 .. n in increasing order, each with the value 0. *)
Definition ascending (n : nat) : list (Pair nat nat) :=
  List.map (fun k => make_pair k 0) (seq 1 n).

(** ** Sequences in key order *)

Definition lt_pair {K V : Type} `{Comparable K} (a b : Pair K V) : Prop :=
  pair_lt a b = true.

(** A sequence of elements in strictly increasing key order. *)
Definition Ordered {K V : Type} `{Comparable K} (l : list (Pair K V)) : Prop :=
  StronglySorted lt_pair l.

(** * Facts about sequences in key order *)

Section KeyOrder.
Context {K V : Type} `{Comparable K}.
#[local] Abbreviation T := (Pair K V).

Lemma lt_pair_trans (a b c : T) : lt_pair a b -> lt_pair b c -> lt_pair a c.
Proof. unfold lt_pair, pair_lt. apply lt_key_trans. Qed.

Lemma lt_pair_irrefl (a b : T) : first a = first b -> pair_lt a b = false.
Proof. unfold pair_lt. intros ->. apply lt_key_irrefl. Qed.

Lemma pair_eq_true (a b : T) : pair_eq a b = true <-> first a = first b.
Proof. unfold pair_eq. apply eq_key_spec. Qed.

Lemma pair_eq_false (a b : T) : pair_eq a b = false <-> first a <> first b.
Proof.
  unfold pair_eq. split.
  - intros E F. apply eq_key_spec in F. congruence.
  - intros N. destruct (eq_key (first a) (first b)) eqn:E; trivial.
    apply eq_key_spec in E. contradiction.
Qed.

Lemma lt_pair_neq (a b : T) : lt_pair a b -> first a <> first b.
Proof.
  intros Hlt E. apply lt_pair_irrefl in E. unfold lt_pair in Hlt. congruence.
Qed.

Lemma lt_pair_asym (a b : T) : lt_pair a b -> pair_lt b a = false.
Proof.
  intros Hab. destruct (pair_lt b a) eqn:E; trivial.
  pose proof (lt_pair_trans _ _ _ Hab E) as Haa.
  unfold lt_pair in Haa. rewrite lt_pair_irrefl in Haa by reflexivity.
  discriminate.
Qed.

Lemma pair_trichotomy (a b : T) :
  pair_lt a b = false -> pair_eq a b = false -> lt_pair b a.
Proof.
  intros Hlt Hne. unfold lt_pair. destruct (pair_lt b a) eqn:E; trivial.
  apply pair_eq_false in Hne. exfalso. apply Hne.
  apply lt_key_total; assumption.
Qed.

Lemma Ordered_app_cons (l1 l2 : list T) (d : T) :
  Ordered (l1 ++ d :: l2) <->
  Ordered l1 /\ Ordered l2 /\
  Forall (fun x => lt_pair x d) l1 /\ Forall (lt_pair d) l2.
Proof.
  unfold Ordered. induction l1 as [|a l1 IH]; simpl.
  - split.
    + intros S. inversion S; subst. repeat split; auto; constructor.
    + intros (_ & S2 & _ & F). constructor; assumption.
  - split.
    + intros S. inversion S as [|? ? S' F]; subst.
      apply IH in S' as (S1 & S2 & F1 & F2).
      apply Forall_app in F as (Fa & Fd).
      inversion Fd as [|? ? Had Fa2]; subst.
      repeat split; auto; constructor; auto.
    + intros (S1 & S2 & F1 & F2).
      inversion S1 as [|? ? S1' Fa]; subst.
      inversion F1 as [|? ? Had F1']; subst.
      constructor.
      * apply IH. auto.
      * apply Forall_app. split; auto. constructor; auto.
        eapply Forall_impl; [|exact F2].
        intros x Hx. eapply lt_pair_trans; eauto.
Qed.

Lemma Ordered_app_drop (l1 l2 : list T) (d : T) :
  Ordered (l1 ++ d :: l2) -> Ordered (l1 ++ l2).
Proof.
  unfold Ordered. induction l1 as [|a l1 IH]; simpl; intros S.
  - inversion S; assumption.
  - inversion S as [|? ? S' F]; subst. constructor; auto.
    apply Forall_app in F as (Fa & Fd). inversion Fd; subst.
    apply Forall_app; auto.
Qed.

Lemma sorted_keys_Ordered (l : list T) :
  BST.sorted_keys (List.map first l) = true <-> Ordered l.
Proof.
  unfold Ordered. induction l as [|a l IH]; simpl.
  - split; auto. constructor.
  - destruct l as [|b l]; simpl in *.
    + split; auto. intros _. repeat constructor.
    + rewrite andb_true_iff, IH. split.
      * intros (Hab & S). constructor; auto. constructor; auto.
        inversion S as [|? ? _ F]; subst.
        eapply Forall_impl; [|exact F].
        intros x Hx. eapply lt_pair_trans; eauto.
      * intros S. inversion S as [|? ? S' F]; subst.
        inversion F; subst. auto.
Qed.

Lemma Ordered_key_unique (l : list T) (a b : T) :
  Ordered l -> In a l -> In b l -> first a = first b -> a = b.
Proof.
  unfold Ordered. induction 1 as [|x l S IH F]; simpl; [tauto|].
  rewrite Forall_forall in F.
  intros [->|Ha] [->|Hb] E; auto.
  - apply F in Hb. apply lt_pair_neq in Hb. contradiction.
  - apply F in Ha. apply lt_pair_neq in Ha. congruence.
Qed.

Lemma Ordered_keys (l : list T) :
  Ordered l ->
  StronglySorted (fun a b => lt_key a b = true) (List.map first l).
Proof.
  unfold Ordered. induction 1 as [|x l S IH F]; simpl; constructor; auto.
  apply Forall_map. exact F.
Qed.

Lemma Ordered_NoDup (l : list T) : Ordered l -> NoDup (List.map first l).
Proof.
  unfold Ordered. induction 1 as [|x l S IH F]; simpl; constructor; auto.
  rewrite in_map_iff. intros (y & E & Hy).
  rewrite Forall_forall in F. apply F in Hy. apply lt_pair_neq in Hy.
  congruence.
Qed.

End KeyOrder.

(** * Facts about the shape of the tree *)

Section Shape.
Context {T : Type}.
Import BST.

Ltac split_tree :=
  repeat (cbn beta iota;
    match goal with
    | |- context [match ?t with Leaf => _ | Node _ _ _ _ => _ end] =>
        is_var t; destruct t
    | |- context [match ?c with Red => _ | Black => _ end] =>
        is_var c; destruct c
    end).

Ltac list_assoc :=
  simpl; repeat (rewrite <- app_assoc; simpl); try reflexivity.

Lemma count_elements (t : BNode T) : count t = length (elements t).
Proof.
  induction t as [|c l IHl d r IHr]; simpl; trivial.
  rewrite length_app. simpl. lia.
Qed.

Lemma elements_paint (c : color) (t : BNode T) :
  elements (paint c t) = elements t.
Proof. destruct t; reflexivity. Qed.

Lemma elements_balance_left (l : BNode T) (d : T) (r : BNode T) :
  elements (balance_left l d r) = elements l ++ d :: elements r.
Proof. unfold balance_left. split_tree; list_assoc. Qed.

Lemma elements_balance_right (l : BNode T) (d : T) (r : BNode T) :
  elements (balance_right l d r) = elements l ++ d :: elements r.
Proof. unfold balance_right. split_tree; list_assoc. Qed.

Lemma elements_fix_left (l : BNode T) (d : T) (r : BNode T) :
  elements (fix_left l d r) = elements l ++ d :: elements r.
Proof.
  unfold fix_left. split_tree; cbn [elements];
    rewrite ?elements_balance_right; cbn [elements];
    rewrite ?elements_paint; list_assoc.
Qed.

Lemma elements_fix_right (l : BNode T) (d : T) (r : BNode T) :
  elements (fix_right l d r) = elements l ++ d :: elements r.
Proof.
  unfold fix_right. split_tree; cbn [elements];
    rewrite ?elements_balance_left; cbn [elements];
    rewrite ?elements_paint; list_assoc.
Qed.

Lemma split_min_leaf (t : BNode T) : split_min t = None -> t = Leaf.
Proof.
  destruct t as [|c l d r]; simpl; trivial.
  destruct (split_min l) as [[x l']|]; discriminate.
Qed.

Lemma elements_split_min (t : BNode T) (x : T) (t' : BNode T) :
  split_min t = Some (x, t') -> elements t = x :: elements t'.
Proof.
  revert x t'. induction t as [|c l IHl d r IHr]; simpl; [discriminate|].
  intros x t'. destruct (split_min l) as [[y l']|] eqn:E.
  - intros [= <- <-]. rewrite (IHl _ _ eq_refl).
    destruct (color_of l); simpl; rewrite ?elements_fix_left; reflexivity.
  - intros [= <- <-]. apply split_min_leaf in E. subst l. reflexivity.
Qed.

Lemma elements_remove_root (l : BNode T) (d : T) (r : BNode T) :
  elements (remove_root l d r) = elements l ++ elements r.
Proof.
  unfold remove_root. destruct l as [|cl ll dl rl].
  - destruct r; reflexivity.
  - destruct r as [|cr lr dr rr]; [now rewrite app_nil_r|].
    destruct (split_min (Node cr lr dr rr)) as [[x r']|] eqn:E.
    + rewrite (elements_split_min _ _ _ E).
      destruct (color_of (Node cr lr dr rr)); simpl;
        rewrite ?elements_fix_right; reflexivity.
    + apply split_min_leaf in E. discriminate.
Qed.

(** Removing the node at a valid path takes its element, and nothing else,
    out of the in-order sequence. *)
Lemma elements_remove_at (t : BNode T) (p : path) (d : T) :
  data_at t p = Some d ->
  exists l1 l2,
    elements t = l1 ++ d :: l2 /\ length l1 = rank t p /\
    elements (remove_at p t) = l1 ++ l2.
Proof.
  unfold data_at. revert p.
  induction t as [|c l IHl x r IHr]; intros p; [destruct p as [|[] ?]; simpl; discriminate|].
  destruct p as [|[] q]; simpl.
  - intros [= ->]. exists (elements l), (elements r).
    rewrite elements_remove_root, count_elements. auto.
  - intros Hq. destruct (IHl q Hq) as (l1 & l2 & E & Hlen & Hrem).
    exists l1, (l2 ++ x :: elements r). rewrite E. split; [list_assoc|].
    split; [assumption|].
    destruct (negb (is_leaf l) && _); simpl;
      rewrite ?elements_fix_left, Hrem; list_assoc.
  - intros Hq. destruct (IHr q Hq) as (l1 & l2 & E & Hlen & Hrem).
    exists (elements l ++ x :: l1), l2. rewrite E. split; [list_assoc|].
    split; [rewrite length_app, count_elements; simpl; lia|].
    destruct (negb (is_leaf r) && _); simpl;
      rewrite ?elements_fix_right, Hrem; list_assoc.
Qed.

(** The node at a valid path is the element at its rank. *)
Lemma data_at_rank (t : BNode T) (p : path) (d : T) :
  data_at t p = Some d -> nth_error (elements t) (rank t p) = Some d.
Proof.
  unfold data_at. revert p.
  induction t as [|c l IHl x r IHr]; intros p; [destruct p as [|[] ?]; simpl; discriminate|].
  destruct p as [|[] q]; simpl.
  - intros [= ->]. rewrite nth_error_app2; rewrite count_elements; [|lia].
    now rewrite Nat.sub_diag.
  - intros Hq. pose proof (IHl q Hq) as E.
    rewrite nth_error_app1; trivial.
    apply nth_error_Some. congruence.
  - intros Hq. rewrite nth_error_app2; rewrite count_elements; [|lia].
    replace (length (elements l) + 1 + rank r q - length (elements l))
      with (S (rank r q)) by lia.
    simpl. auto.
Qed.

Lemma data_at_In (t : BNode T) (p : path) (d : T) :
  data_at t p = Some d -> In d (elements t).
Proof. intros E. eapply nth_error_In, data_at_rank, E. Qed.

Lemma data_at_rank_lt (t : BNode T) (p : path) (d : T) :
  data_at t p = Some d -> rank t p < count t.
Proof.
  intros E. rewrite count_elements. apply nth_error_Some.
  rewrite (data_at_rank _ _ _ E). discriminate.
Qed.

Lemma leftmost_leaf (t : BNode T) : leftmost t = None -> t = Leaf.
Proof.
  destruct t as [|c l d r]; simpl; trivial.
  destruct (leftmost l); discriminate.
Qed.

Lemma rightmost_leaf (t : BNode T) : rightmost t = None -> t = Leaf.
Proof.
  destruct t as [|c l d r]; simpl; trivial.
  destruct (rightmost r); discriminate.
Qed.

Lemma leftmost_first (t : BNode T) (q : path) :
  leftmost t = Some q -> rank t q = 0 /\ data_at t q <> None.
Proof.
  unfold data_at. revert q.
  induction t as [|c l IHl d r IHr]; simpl; intros q; [discriminate|].
  destruct (leftmost l) as [q'|] eqn:E.
  - intros [= <-]. simpl. auto.
  - intros [= <-]. apply leftmost_leaf in E. subst l. simpl.
    split; [reflexivity|discriminate].
Qed.

Lemma rightmost_last (t : BNode T) (q : path) :
  leftmost t <> None ->
  rightmost t = Some q -> S (rank t q) = count t /\ data_at t q <> None.
Proof.
  unfold data_at. intros _. revert q.
  induction t as [|c l IHl d r IHr]; simpl; intros q; [discriminate|].
  destruct (rightmost r) as [q'|] eqn:E.
  - intros [= <-]. simpl. destruct (IHr q' eq_refl) as (E1 & E2).
    split; [lia|assumption].
  - intros [= <-]. apply rightmost_leaf in E. subst r. simpl.
    split; [lia|discriminate].
Qed.

(** A valid path of rank 0 is the leftmost one. *)
Lemma rank_zero_leftmost (t : BNode T) (p : path) :
  data_at t p <> None -> rank t p = 0 -> leftmost t = Some p.
Proof.
  unfold data_at. revert p.
  induction t as [|c l IHl d r IHr]; intros p; [destruct p as [|[] ?]; simpl; congruence|].
  destruct p as [|[] q]; simpl.
  - intros _ E. destruct l; [reflexivity|simpl in E; lia].
  - intros Hq E. now rewrite (IHl q Hq E).
  - intros _ E. lia.
Qed.

(** How the successor unfolds along a valid path. *)
Lemma successor_here (c : color) (l : BNode T) (d : T) (r : BNode T) :
  successor (Node c l d r) [] = option_map (cons R) (leftmost r).
Proof. unfold successor. simpl. destruct (leftmost r); reflexivity. Qed.

Lemma successor_left (c : color) (l : BNode T) (d : T) (r : BNode T) (q : path) :
  data_at l q <> None ->
  successor (Node c l d r) (L :: q) =
  match successor l q with
  | Some s => Some (L :: s)
  | None => Some []
  end.
Proof.
  unfold successor, data_at. simpl. destruct (subtree l q) as [|c' l' d' r'].
  - congruence.
  - intros _. destruct (leftmost r'); [reflexivity|].
    destruct (ascend_from_left q); reflexivity.
Qed.

Lemma successor_right (c : color) (l : BNode T) (d : T) (r : BNode T) (q : path) :
  data_at r q <> None ->
  successor (Node c l d r) (R :: q) = option_map (cons R) (successor r q).
Proof.
  unfold successor, data_at. simpl. destruct (subtree r q) as [|c' l' d' r'].
  - congruence.
  - intros _. destruct (leftmost r'); [reflexivity|].
    destruct (ascend_from_left q); reflexivity.
Qed.

(** The successor of a node is the next one in the in-order sequence, and
    there is none exactly at the last node. *)
Lemma successor_rank (t : BNode T) (p : path) :
  data_at t p <> None ->
  match successor t p with
  | Some q => rank t q = S (rank t p) /\ data_at t q <> None
  | None => S (rank t p) = count t
  end.
Proof.
  revert p. induction t as [|c l IHl d r IHr]; intros p.
  - unfold data_at. destruct p as [|[] ?]; simpl; congruence.
  - destruct p as [|[] q].
    + intros _. rewrite successor_here.
      destruct (leftmost r) as [s|] eqn:E; simpl.
      * destruct (leftmost_first _ _ E) as (E1 & E2).
        rewrite E1. split; [lia|exact E2].
      * apply leftmost_leaf in E. subst r. simpl. lia.
    + intros Hq. change (data_at (Node c l d r) (L :: q)) with (data_at l q) in Hq.
      rewrite successor_left by assumption.
      specialize (IHl q Hq). destruct (successor l q) as [s|]; simpl.
      * exact IHl.
      * split; [lia|discriminate].
    + intros Hq. change (data_at (Node c l d r) (R :: q)) with (data_at r q) in Hq.
      rewrite successor_right by assumption.
      specialize (IHr q Hq). destruct (successor r q) as [s|]; simpl.
      * destruct IHr as (E1 & E2). split; [lia|exact E2].
      * lia.
Qed.

Lemma predecessor_here (c : color) (l : BNode T) (d : T) (r : BNode T) :
  predecessor (Node c l d r) [] = option_map (cons L) (rightmost l).
Proof. unfold predecessor. simpl. destruct (rightmost l); reflexivity. Qed.

Lemma predecessor_left (c : color) (l : BNode T) (d : T) (r : BNode T) (q : path) :
  data_at l q <> None ->
  predecessor (Node c l d r) (L :: q) = option_map (cons L) (predecessor l q).
Proof.
  unfold predecessor, data_at. simpl. destruct (subtree l q) as [|c' l' d' r'].
  - congruence.
  - intros _. destruct (rightmost l'); [reflexivity|].
    destruct (ascend_from_right q); reflexivity.
Qed.

Lemma predecessor_right (c : color) (l : BNode T) (d : T) (r : BNode T) (q : path) :
  data_at r q <> None ->
  predecessor (Node c l d r) (R :: q) =
  match predecessor r q with
  | Some s => Some (R :: s)
  | None => Some []
  end.
Proof.
  unfold predecessor, data_at. simpl. destruct (subtree r q) as [|c' l' d' r'].
  - congruence.
  - intros _. destruct (rightmost l'); [reflexivity|].
    destruct (ascend_from_right q); reflexivity.
Qed.

(** The predecessor of a node is the previous one in the in-order sequence,
    and there is none exactly at the first node. *)
Lemma predecessor_rank (t : BNode T) (p : path) :
  data_at t p <> None ->
  match predecessor t p with
  | Some q => S (rank t q) = rank t p /\ data_at t q <> None
  | None => rank t p = 0
  end.
Proof.
  revert p. induction t as [|c l IHl d r IHr]; intros p.
  - unfold data_at. destruct p as [|[] ?]; simpl; congruence.
  - destruct p as [|[] q].
    + intros _. rewrite predecessor_here.
      destruct (rightmost l) as [s|] eqn:E; simpl.
      * assert (Hl : leftmost l <> None).
        { intros F. apply leftmost_leaf in F. subst l. discriminate. }
        destruct (rightmost_last _ _ Hl E) as (E1 & E2).
        split; [lia|exact E2].
      * apply rightmost_leaf in E. subst l. reflexivity.
    + intros Hq. change (data_at (Node c l d r) (L :: q)) with (data_at l q) in Hq.
      rewrite predecessor_left by assumption.
      specialize (IHl q Hq). destruct (predecessor l q) as [s|]; simpl.
      * exact IHl.
      * exact IHl.
    + intros Hq. change (data_at (Node c l d r) (R :: q)) with (data_at r q) in Hq.
      rewrite predecessor_right by assumption.
      specialize (IHr q Hq). destruct (predecessor r q) as [s|]; simpl.
      * destruct IHr as (E1 & E2). split; [lia|exact E2].
      * split; [lia|discriminate].
Qed.

Lemma path_eqb_eq (p q : path) : path_eqb p q = true <-> p = q.
Proof.
  revert q. induction p as [|a p IH]; destruct q as [|b q]; simpl;
    try (split; [discriminate|discriminate]); [tauto|].
  rewrite andb_true_iff, IH. destruct a, b; simpl;
    split; intros E; try (destruct E; congruence);
    try (injection E as ->; auto); try discriminate.
Qed.

End Shape.

(** * Facts about searching and attaching by key *)

Section Search.
Context {K V : Type} `{Comparable K}.
#[local] Abbreviation T := (Pair K V).
Import BST.

Lemma Ordered_app (l1 l2 : list T) :
  Ordered (l1 ++ l2) -> Ordered l1 /\ Ordered l2.
Proof.
  unfold Ordered. induction l1 as [|a l1 IH]; simpl; intros S.
  - split; [constructor|assumption].
  - inversion S as [|? ? S' F]; subst. apply IH in S' as (S1 & S2).
    apply Forall_app in F as (F1 & F2). split; [constructor|]; assumption.
Qed.

Lemma Ordered_node (c : color) (l : BNode T) (d : T) (r : BNode T) :
  Ordered (elements (Node c l d r)) ->
  Ordered (elements l) /\ Ordered (elements r) /\
  (forall x, In x (elements l) -> lt_pair x d) /\
  (forall x, In x (elements r) -> lt_pair d x).
Proof.
  simpl. intros S. apply Ordered_app_cons in S as (S1 & S2 & F1 & F2).
  rewrite Forall_forall in F1, F2. auto.
Qed.

(** What [find] reaches carries the key looked for. *)
Lemma find_path_sound (t : BNode T) (e : T) (p : path) :
  find_path t e = Some p ->
  exists d, data_at t p = Some d /\ first d = first e.
Proof.
  unfold data_at. revert p.
  induction t as [|c l IHl d r IHr]; simpl; intros p; [discriminate|].
  destruct (pair_eq e d) eqn:Eeq.
  - intros [= <-]. exists d. apply pair_eq_true in Eeq. auto.
  - destruct (pair_lt e d).
    + destruct (find_path l e) as [q|]; simpl; [|discriminate].
      intros [= <-]. apply (IHl q eq_refl).
    + destruct (find_path r e) as [q|]; simpl; [|discriminate].
      intros [= <-]. apply (IHr q eq_refl).
Qed.

(** In a tree in search order, [find] reaches the node of every key stored. *)
Lemma find_path_complete (t : BNode T) (e d : T) :
  Ordered (elements t) -> In d (elements t) -> first d = first e ->
  exists p, find_path t e = Some p /\ data_at t p = Some d.
Proof.
  unfold data_at.
  induction t as [|c l IHl x r IHr]; [simpl; tauto|].
  intros S Hin E. pose proof (Ordered_node _ _ _ _ S) as (Sl & Sr & Fl & Fr).
  simpl in Hin |- *. apply in_app_or in Hin.
  destruct (pair_eq e x) eqn:Eeq.
  - exists []. split; trivial. simpl. f_equal.
    apply pair_eq_true in Eeq.
    apply (Ordered_key_unique _ x d S); simpl.
    + apply in_or_app. right. left. reflexivity.
    + apply in_or_app. simpl. tauto.
    + congruence.
  - apply pair_eq_false in Eeq.
    destruct Hin as [Hin|[->|Hin]]; [| congruence |].
    + pose proof (Fl _ Hin) as Hlt. unfold lt_pair, pair_lt in Hlt.
      unfold pair_lt. rewrite <- E, Hlt.
      destruct (IHl Sl Hin E) as (q & -> & Hq). exists (L :: q). auto.
    + pose proof (Fr _ Hin) as Hlt. apply lt_pair_asym in Hlt.
      unfold pair_lt in Hlt |- *. rewrite <- E, Hlt.
      destruct (IHr Sr Hin E) as (q & -> & Hq). exists (R :: q). auto.
Qed.

Lemma find_path_absent (t : BNode T) (e : T) :
  (forall d, In d (elements t) -> first d <> first e) ->
  find_path t e = None.
Proof.
  intros Hno. destruct (find_path t e) as [p|] eqn:E; trivial.
  apply find_path_sound in E as (d & Hd & Hk).
  apply data_at_In in Hd. apply Hno in Hd. contradiction.
Qed.

Lemma find_path_None (t : BNode T) (e : T) :
  Ordered (elements t) -> find_path t e = None ->
  forall d, In d (elements t) -> first d <> first e.
Proof.
  intros S E d Hin Hk.
  destruct (find_path_complete t e d S Hin Hk) as (p & Hp & _). congruence.
Qed.

(** [ins] adds one node. *)
Lemma count_ins (e : T) (t : BNode T) : count (ins e t) = S (count t).
Proof.
  rewrite !count_elements.
  induction t as [|c l IHl d r IHr]; simpl; trivial.
  destruct c, (pair_lt e d); simpl;
    rewrite ?elements_balance_left, ?elements_balance_right;
    rewrite !length_app; simpl; rewrite ?length_app; lia.
Qed.

(** [ins] puts a new key between the smaller and the greater ones. *)
Lemma elements_ins (e : T) (t : BNode T) :
  Ordered (elements t) ->
  (forall d, In d (elements t) -> first d <> first e) ->
  exists l1 l2,
    elements t = l1 ++ l2 /\ elements (ins e t) = l1 ++ e :: l2 /\
    Forall (fun x => lt_pair x e) l1 /\ Forall (lt_pair e) l2.
Proof.
  induction t as [|c l IHl d r IHr]; intros S Hno.
  - exists [], []. simpl. auto.
  - pose proof (Ordered_node _ _ _ _ S) as (Sl & Sr & Fl & Fr).
    assert (Hd : first d <> first e).
    { apply Hno. simpl. apply in_or_app. right. left. reflexivity. }
    assert (El : elements (ins e (Node c l d r)) =
                 if pair_lt e d then elements (ins e l) ++ d :: elements r
                 else elements l ++ d :: elements (ins e r)).
    { simpl. destruct c, (pair_lt e d); simpl;
        rewrite ?elements_balance_left, ?elements_balance_right; reflexivity. }
    rewrite El. clear El. simpl (elements (Node c l d r)).
    destruct (pair_lt e d) eqn:Hlt.
    + destruct IHl as (a & b & Ea & Eb & Fa & Fb); trivial.
      { intros x Hx. apply Hno. simpl. apply in_or_app. auto. }
      exists a, (b ++ d :: elements r). rewrite Ea, Eb.
      repeat split; try (repeat (rewrite <- app_assoc; simpl); reflexivity);
        trivial.
      apply Forall_app. split; trivial. constructor; [exact Hlt|].
      apply Forall_forall. intros x Hx.
      eapply lt_pair_trans; [exact Hlt|]. apply Fr. exact Hx.
    + assert (Hgt : lt_pair d e).
      { apply pair_trichotomy; trivial. apply pair_eq_false. congruence. }
      destruct IHr as (a & b & Ea & Eb & Fa & Fb); trivial.
      { intros x Hx. apply Hno. simpl. apply in_or_app. simpl. auto. }
      exists (elements l ++ d :: a), b. rewrite Ea, Eb.
      repeat split; try (repeat (rewrite <- app_assoc; simpl); reflexivity);
        trivial.
      apply Forall_app. split.
      * apply Forall_forall. intros x Hx.
        eapply lt_pair_trans; [|exact Hgt]. apply Fl. exact Hx.
      * constructor; trivial.
Qed.

Lemma Ordered_insert (l1 l2 : list T) (e : T) :
  Ordered (l1 ++ l2) ->
  Forall (fun x => lt_pair x e) l1 -> Forall (lt_pair e) l2 ->
  Ordered (l1 ++ e :: l2).
Proof.
  intros S F1 F2. apply Ordered_app in S as (S1 & S2).
  apply Ordered_app_cons. auto.
Qed.

Lemma last_not_greater_None (t : BNode T) (e : T) :
  (forall x, In x (elements t) -> lt_pair e x) ->
  last_not_greater t e = None.
Proof.
  induction t as [|c l IHl d r IHr]; simpl; trivial.
  intros F. rewrite (F d) by (apply in_or_app; simpl; auto).
  rewrite IHl; trivial. intros x Hx. apply F. apply in_or_app. auto.
Qed.

(** With unique keys, the node attached for a key is the one [find] reaches. *)
Lemma last_not_greater_find (t : BNode T) (e : T) (p : path) :
  Ordered (elements t) -> find_path t e = Some p ->
  last_not_greater t e = Some p.
Proof.
  revert p. induction t as [|c l IHl d r IHr]; simpl; intros p S;
    [discriminate|].
  pose proof (Ordered_node c l d r S) as (Sl & Sr & Fl & Fr).
  destruct (pair_eq e d) eqn:Eeq.
  - intros [= <-]. apply pair_eq_true in Eeq.
    rewrite (lt_pair_irrefl e d Eeq).
    rewrite last_not_greater_None; trivial.
    intros x Hx. apply Fr in Hx. unfold lt_pair, pair_lt in *. congruence.
  - destruct (pair_lt e d).
    + destruct (find_path l e) as [q|]; simpl; [|discriminate].
      intros [= <-]. now rewrite (IHl q Sl eq_refl).
    + destruct (find_path r e) as [q|]; simpl; [|discriminate].
      intros [= <-]. now rewrite (IHr q Sr eq_refl).
Qed.

End Search.

(** * Facts about the operations of the map *)

Section Operations.
Context {K V : Type} `{Comparable K} `{DefaultConstructible V}.
Import Map.
#[local] Abbreviation map := (Map.map K V).
#[local] Abbreviation Pair := (Pair K V).

Lemma consistent_iff (m : map) :
  consistent m = true <->
  Ordered (to_list m) /\
  BST.numElements (bst m) = BST.count (BST.root (bst m)).
Proof.
  unfold consistent, BST.ordered, to_list.
  rewrite andb_true_iff, sorted_keys_Ordered, Nat.eqb_eq. reflexivity.
Qed.

Lemma size_to_list (m : map) :
  consistent m = true -> size m = length (to_list m).
Proof.
  intros C. apply consistent_iff in C as (_ & E).
  unfold size, BST.size, to_list. now rewrite E, count_elements.
Qed.

(** [find] leaves the map alone and reaches the node of a stored key. *)
Lemma find_present (m : map) (k : K) (d : Pair) :
  consistent m = true -> In d (to_list m) -> first d = k ->
  exists p,
    find k m = (Return {| it := {| BST.pNode := Some p |} |}, m) /\
    BST.data_at (BST.root (bst m)) p = Some d.
Proof.
  intros C Hin Hk. apply consistent_iff in C as (S & _).
  destruct (find_path_complete (BST.root (bst m)) (Pair_of_key k) d S Hin Hk)
    as (p & Hp & Hd).
  exists p. unfold find, BST.find. rewrite Hp. auto.
Qed.

Lemma find_absent (m : map) (k : K) :
  (forall d, In d (to_list m) -> first d <> k) ->
  find k m = (Return {| it := BST.end_ (bst m) |}, m).
Proof.
  intros Hno. unfold find, BST.find, BST.end_.
  rewrite find_path_absent; trivial.
Qed.

(** Every key is stored or not. *)
Lemma stored_or_not (m : map) (k : K) :
  consistent m = true ->
  (exists d, In d (to_list m) /\ first d = k) \/
  (forall d, In d (to_list m) -> first d <> k).
Proof.
  intros C. apply consistent_iff in C as (S & _).
  destruct (BST.find_path (BST.root (bst m)) (Pair_of_key k)) as [p|] eqn:E.
  - left. apply find_path_sound in E as (d & Hd & Hk).
    exists d. split; [eapply data_at_In; eassumption|exact Hk].
  - right. exact (find_path_None _ _ S E).
Qed.

(** The tree's [insert] with [keepUnique] on a stored key. *)
Lemma tree_insert_present (b : BST.BST Pair) (e d : Pair) :
  Ordered (BST.elements (BST.root b)) ->
  In d (BST.elements (BST.root b)) -> first d = first e ->
  exists p,
    BST.insert b e true = (({| BST.pNode := Some p |}, false), b) /\
    BST.data_at (BST.root b) p = Some d.
Proof.
  intros S Hin Hk.
  destruct (find_path_complete (BST.root b) e d S Hin Hk) as (p & Hp & Hd).
  exists p. unfold BST.insert. rewrite Hp. auto.
Qed.

(** The tree's [insert] with [keepUnique] on a new key. *)
Lemma tree_insert_absent (b : BST.BST Pair) (e : Pair) :
  Ordered (BST.elements (BST.root b)) ->
  BST.numElements b = BST.count (BST.root b) ->
  (forall d, In d (BST.elements (BST.root b)) -> first d <> first e) ->
  exists p b' l1 l2,
    BST.insert b e true = (({| BST.pNode := Some p |}, true), b') /\
    BST.elements (BST.root b) = l1 ++ l2 /\
    BST.elements (BST.root b') = l1 ++ e :: l2 /\
    Ordered (BST.elements (BST.root b')) /\
    BST.numElements b' = BST.count (BST.root b') /\
    BST.numElements b' = S (BST.numElements b) /\
    BST.find_path (BST.root b') e = Some p /\
    BST.data_at (BST.root b') p = Some e.
Proof.
  intros Hs Hc Hno.
  destruct (elements_ins e (BST.root b) Hs Hno) as (l1 & l2 & E1 & E2 & F1 & F2).
  set (root' := BST.paint BST.Black (BST.ins e (BST.root b))).
  assert (E' : BST.elements root' = l1 ++ e :: l2).
  { unfold root'. now rewrite elements_paint. }
  assert (S' : Ordered (BST.elements root')).
  { rewrite E'. apply Ordered_insert; trivial. now rewrite <- E1. }
  assert (Hin : In e (BST.elements root')).
  { rewrite E'. apply in_or_app. simpl. auto. }
  destruct (find_path_complete root' e e S' Hin eq_refl) as (p & Hp & Hd).
  exists p, {| BST.root := root'; BST.numElements := S (BST.numElements b) |}, l1, l2.
  unfold BST.insert. rewrite (find_path_absent _ _ Hno). fold root'.
  rewrite (last_not_greater_find _ _ _ S' Hp). simpl.
  repeat split; trivial.
  rewrite Hc. unfold root'.
  rewrite !count_elements, elements_paint, <- !count_elements.
  symmetry. apply count_ins.
Qed.

(** The tree's [erase] at a node. *)
Lemma tree_erase_node (b : BST.BST Pair) (p : BST.path) (d : Pair) :
  BST.numElements b = BST.count (BST.root b) ->
  BST.data_at (BST.root b) p = Some d ->
  exists l1 l2,
    BST.elements (BST.root b) = l1 ++ d :: l2 /\
    length l1 = BST.rank (BST.root b) p /\
    BST.elements (BST.root (snd (BST.erase b {| BST.pNode := Some p |}))) = l1 ++ l2 /\
    BST.numElements (snd (BST.erase b {| BST.pNode := Some p |})) =
      BST.count (BST.root (snd (BST.erase b {| BST.pNode := Some p |}))) /\
    S (BST.numElements (snd (BST.erase b {| BST.pNode := Some p |}))) =
      BST.numElements b.
Proof.
  intros Hc Hd.
  destruct (elements_remove_at _ _ _ Hd) as (l1 & l2 & E1 & Hlen & E2).
  exists l1, l2. unfold BST.erase. simpl. rewrite Hd. simpl.
  rewrite elements_paint.
  assert (Hcount : S (BST.count (BST.paint BST.Black (BST.remove_at p (BST.root b))))
                   = BST.count (BST.root b)).
  { rewrite !count_elements, elements_paint, E1, E2, !length_app. simpl. lia. }
  repeat split; trivial; lia.
Qed.

(** Assigning through a reference changes one value and no key. *)
Lemma keys_set_second (t : BST.BNode Pair) (p : BST.path) (v : V) :
  List.map first (BST.elements (set_second t p v)) =
  List.map first (BST.elements t).
Proof.
  revert p. induction t as [|c l IHl d r IHr]; intros p; trivial.
  destruct p as [|[] q]; simpl; rewrite !map_app; simpl;
    rewrite ?IHl, ?IHr; reflexivity.
Qed.

Lemma count_set_second (t : BST.BNode Pair) (p : BST.path) (v : V) :
  BST.count (set_second t p v) = BST.count t.
Proof.
  rewrite !count_elements.
  rewrite <- (length_map first), keys_set_second. apply length_map.
Qed.

Lemma find_path_set_second (t : BST.BNode Pair) (p : BST.path) (v : V) (e : Pair) :
  BST.find_path (set_second t p v) e = BST.find_path t e.
Proof.
  revert p. induction t as [|c l IHl d r IHr]; intros p; trivial.
  destruct p as [|[] q]; simpl; unfold pair_eq, pair_lt; simpl;
    rewrite ?IHl, ?IHr; reflexivity.
Qed.

Lemma data_at_set_second (t : BST.BNode Pair) (p : BST.path) (v : V) (d : Pair) :
  BST.data_at t p = Some d ->
  BST.data_at (set_second t p v) p = Some (make_pair (first d) v).
Proof.
  unfold BST.data_at. revert p.
  induction t as [|c l IHl x r IHr]; intros p;
    [destruct p as [|[] ?]; simpl; discriminate|].
  destruct p as [|[] q]; simpl; auto.
  intros [= ->]. reflexivity.
Qed.

(** Each operation keeps the map consistent. *)
Lemma insert_consistent (rhs : Pair) (m : map) :
  consistent m = true -> consistent (snd (insert rhs m)) = true.
Proof.
  intros C. pose proof C as C0. apply consistent_iff in C as (S & Hc).
  destruct (stored_or_not m (first rhs) C0) as [(d & Hin & Hk)|Hno].
  - destruct (tree_insert_present (bst m) rhs d S Hin Hk) as (p & E & _).
    unfold insert. rewrite E. simpl. destruct m. exact C0.
  - destruct (tree_insert_absent (bst m) rhs S Hc Hno)
      as (p & b' & l1 & l2 & E & _ & _ & S' & Hc' & _).
    unfold insert. rewrite E. simpl. apply consistent_iff. auto.
Qed.

Lemma subscript_consistent (key : K) (m : map) :
  consistent m = true -> consistent (snd (subscript key m)) = true.
Proof.
  intros C. pose proof (insert_consistent (Pair_of_key key) m C) as C'.
  unfold insert, subscript in *.
  destruct (BST.insert (bst m) (Pair_of_key key) true) as [rv b'].
  exact C'.
Qed.

Lemma store_consistent (r : reference K V) (v : V) (m : map) :
  consistent m = true -> consistent (snd (store r v m)) = true.
Proof.
  intros C. destruct r as [[p|]|probe]; simpl; trivial.
  unfold consistent, BST.ordered in *. simpl.
  now rewrite keys_set_second, count_set_second.
Qed.

Lemma erase_iterator_consistent (i : iterator) (m : map) :
  consistent m = true -> consistent (snd (erase_iterator i m)) = true.
Proof.
  intros C. pose proof C as C0. apply consistent_iff in C as (S & Hc).
  destruct i as [[[p|]]]; unfold erase_iterator.
  - destruct (BST.data_at (BST.root (bst m)) p) as [d|] eqn:Hd.
    + destruct (tree_erase_node (bst m) p d Hc Hd)
        as (l1 & l2 & E1 & _ & E2 & Hc' & _).
      simpl. destruct (BST.erase (bst m) _) as [next b'] eqn:Eb. simpl in *.
      apply consistent_iff. split; trivial. unfold to_list in *. simpl.
      rewrite E2. rewrite E1 in S. eapply Ordered_app_drop; eassumption.
    + unfold BST.erase. simpl. rewrite Hd. simpl. destruct m. exact C0.
  - unfold BST.erase. simpl. destruct m. exact C0.
Qed.

Lemma erase_consistent (k : K) (m : map) :
  consistent m = true -> consistent (snd (erase k m)) = true.
Proof.
  intros C. unfold erase, bind, find, end_. simpl.
  destruct (iterator_ne _ _); simpl; trivial.
  pose proof (erase_iterator_consistent
                {| it := BST.find (bst m) (Pair_of_key k) |} m C) as C'.
  destruct (erase_iterator _ m) as [[next|e] m']; simpl in *; exact C'.
Qed.

Lemma perform_consistent (op : operation) (m : map) :
  consistent m = true -> consistent (perform op m) = true.
Proof.
  intros C. destruct op as [rhs|key|key v|key|i|]; simpl.
  - now apply insert_consistent.
  - now apply subscript_consistent.
  - unfold bind. pose proof (subscript_consistent key m C) as C'.
    destruct (subscript key m) as [[r|e] m']; simpl in *; trivial.
    now apply store_consistent.
  - now apply erase_consistent.
  - now apply erase_iterator_consistent.
  - reflexivity.
Qed.

Lemma run_consistent (ops : list operation) (m : map) :
  consistent m = true -> consistent (run ops m) = true.
Proof.
  revert m. unfold run.
  induction ops as [|op ops IH]; simpl; intros m C; trivial.
  apply IH, perform_consistent, C.
Qed.

(** Every map the client calls can build from the empty one is consistent. *)
Lemma built_consistent (ops : list operation) :
  consistent (run ops (empty_map : map)) = true.
Proof. now apply run_consistent. Qed.

Lemma insert_list_consistent (il : list Pair) (m : map) :
  consistent m = true -> consistent (snd (insert_list il m)) = true.
Proof.
  revert m. induction il as [|e il IH]; simpl; intros m C; trivial.
  unfold bind. pose proof (insert_consistent e m C) as C'.
  destruct (insert e m) as [[r|x] m'] eqn:E; simpl in *.
  - apply IH, C'.
  - exact C'.
Qed.

Lemma of_list_consistent (il : list Pair) : consistent (of_list il) = true.
Proof.
  unfold of_list, assign_list, bind, clear. simpl.
  apply insert_list_consistent. reflexivity.
Qed.

End Operations.

(** * The map as an association list *)

Section Lookup.
Context {K V : Type} `{Comparable K} `{DefaultConstructible V}.
Import Map.
#[local] Abbreviation map := (Map.map K V).
#[local] Abbreviation Pair := (Pair K V).

Lemma lookup_Some (l : list Pair) (k : K) (v : V) :
  Ordered l -> (lookup l k = Some v <-> In (make_pair k v) l).
Proof.
  intros Hs. unfold lookup. split.
  - destruct (List.find _ l) as [d|] eqn:E; simpl; [|discriminate].
    intros [= <-]. apply find_some in E as (Hin & Hk).
    apply eq_key_spec in Hk. subst k. destruct d. exact Hin.
  - intros Hin. destruct (List.find _ l) as [d|] eqn:E; simpl.
    + apply find_some in E as (Hd & Hk). apply eq_key_spec in Hk.
      rewrite (Ordered_key_unique l d (make_pair k v) Hs Hd Hin Hk).
      reflexivity.
    + apply (find_none _ _ E) in Hin. simpl in Hin.
      assert (Ht : eq_key k k = true) by now apply eq_key_spec.
      congruence.
Qed.

Lemma lookup_None (l : list Pair) (k : K) :
  lookup l k = None <-> (forall d, In d l -> first d <> k).
Proof.
  unfold lookup. split.
  - destruct (List.find _ l) as [d|] eqn:E; simpl; [discriminate|].
    intros _ d Hin Hk. apply (find_none _ _ E) in Hin.
    apply eq_key_spec in Hk. congruence.
  - intros Hno. destruct (List.find _ l) as [d|] eqn:E; simpl; trivial.
    apply find_some in E as (Hin & Hk). apply eq_key_spec in Hk.
    apply Hno in Hin. contradiction.
Qed.

Lemma lookup_skip (l1 l2 : list Pair) (e : Pair) (k : K) :
  first e <> k -> lookup (l1 ++ e :: l2) k = lookup (l1 ++ l2) k.
Proof.
  intros Hk. unfold lookup. f_equal.
  induction l1 as [|a l1 IH]; simpl.
  - destruct (eq_key (first e) k) eqn:E; trivial.
    apply eq_key_spec in E. contradiction.
  - now rewrite IH.
Qed.

Lemma lookup_In_key (l : list Pair) (k : K) (v : V) :
  lookup l k = Some v -> exists d, In d l /\ first d = k /\ second d = v.
Proof.
  unfold lookup. destruct (List.find _ l) as [d|] eqn:E; simpl; [|discriminate].
  intros [= <-]. apply find_some in E as (Hin & Hk).
  apply eq_key_spec in Hk. eauto.
Qed.

(** The value under the key of a node is the node's value. *)
Lemma value_of_node (m : map) (p : BST.path) (d : Pair) :
  consistent m = true ->
  BST.data_at (BST.root (bst m)) p = Some d ->
  value_of m (first d) = Some (second d).
Proof.
  intros C Hd. apply consistent_iff in C as (Hs & _).
  apply lookup_Some; trivial. apply data_at_In in Hd. now destruct d.
Qed.

End Lookup.

(** * The operations, read through the association list *)

Section Access.
Context {K V : Type} `{Comparable K} `{DefaultConstructible V}.
Import Map.
#[local] Abbreviation map := (Map.map K V).
#[local] Abbreviation Pair := (Pair K V).

Lemma find_path_key (t : BST.BNode Pair) (e e' : Pair) :
  first e = first e' -> BST.find_path t e = BST.find_path t e'.
Proof.
  intros E. induction t as [|c l IHl d r IHr]; simpl; trivial.
  unfold pair_eq, pair_lt. now rewrite E, IHl, IHr.
Qed.

Lemma value_of_find (m : map) (k : K) (v : V) :
  consistent m = true -> value_of m k = Some v ->
  exists p,
    BST.find_path (BST.root (bst m)) (Pair_of_key k) = Some p /\
    BST.data_at (BST.root (bst m)) p = Some (make_pair k v).
Proof.
  intros C Hv. apply consistent_iff in C as (Hs & _).
  apply lookup_Some in Hv; trivial.
  apply (find_path_complete _ (Pair_of_key k) _ Hs Hv). reflexivity.
Qed.

Lemma value_of_no_find (m : map) (k : K) :
  value_of m k = None ->
  BST.find_path (BST.root (bst m)) (Pair_of_key k) = None.
Proof.
  intros Hv. apply find_path_absent. apply lookup_None. exact Hv.
Qed.

Lemma at_found (m : map) (k : K) (p : BST.path) :
  BST.find_path (BST.root (bst m)) (Pair_of_key k) = Some p ->
  at_ k m = (Return (node_second (Some p)), m).
Proof.
  intros E. unfold at_, bind, find, end_, BST.find. rewrite E. reflexivity.
Qed.

Lemma at_missing (m : map) (k : K) :
  BST.find_path (BST.root (bst m)) (Pair_of_key k) = None ->
  at_ k m = (Throw (out_of_range "invalid map<K, T> key"), m).
Proof.
  intros E. unfold at_, bind, find, end_, BST.find. rewrite E. reflexivity.
Qed.

Lemma load_node (m : map) (p : BST.path) (d : Pair) :
  BST.data_at (BST.root (bst m)) p = Some d ->
  load m (node_second (Some p)) = Some (second d).
Proof. intros E. simpl. now rewrite E. Qed.

(** [insert] of a pair whose key is not stored. *)
Lemma insert_new (m : map) (e : Pair) :
  consistent m = true -> value_of m (first e) = None ->
  exists p m',
    insert e m = (Return ({| it := {| BST.pNode := Some p |} |}, true), m') /\
    consistent m' = true /\
    size m' = S (size m) /\
    BST.data_at (BST.root (bst m')) p = Some e /\
    BST.find_path (BST.root (bst m')) (Pair_of_key (first e)) = Some p /\
    value_of m' (first e) = Some (second e) /\
    (forall k, k <> first e -> value_of m' k = value_of m k).
Proof.
  intros C Hv. apply consistent_iff in C as (Hs & Hc).
  unfold value_of in Hv. rewrite lookup_None in Hv.
  destruct (tree_insert_absent (bst m) e Hs Hc Hv)
    as (p & b' & l1 & l2 & E & E1 & E2 & Hs' & Hc' & Hn & Hf & Hd).
  exists p, {| bst := b' |}. unfold insert. rewrite E. simpl.
  assert (C' : consistent {| bst := b' |} = true).
  { apply consistent_iff. auto. }
  repeat split; trivial.
  - rewrite <- Hf. now apply find_path_key.
  - apply (value_of_node {| bst := b' |} p e C' Hd).
  - intros k Hk. unfold value_of, to_list. simpl. rewrite E1, E2.
    apply lookup_skip. congruence.
Qed.

(** [insert] of a pair whose key is stored. *)
Lemma insert_old (m : map) (e : Pair) (v : V) :
  consistent m = true -> value_of m (first e) = Some v ->
  exists p,
    insert e m = (Return ({| it := {| BST.pNode := Some p |} |}, false), m) /\
    BST.find_path (BST.root (bst m)) (Pair_of_key (first e)) = Some p /\
    BST.data_at (BST.root (bst m)) p = Some (make_pair (first e) v).
Proof.
  intros C Hv. destruct (value_of_find m _ v C Hv) as (p & Hf & Hd).
  exists p. unfold insert, BST.insert.
  rewrite (find_path_key _ e (Pair_of_key (first e)) eq_refl), Hf.
  destruct m. auto.
Qed.

(** [insert] keeps what is stored. *)
Lemma insert_keeps (m : map) (e : Pair) (k : K) (v : V) :
  consistent m = true -> value_of m k = Some v ->
  value_of (snd (insert e m)) k = Some v.
Proof.
  intros C Hv. destruct (value_of m (first e)) as [w|] eqn:Ew.
  - destruct (insert_old m e w C Ew) as (p & -> & _). exact Hv.
  - destruct (insert_new m e C Ew) as (p & m' & -> & _ & _ & _ & _ & _ & Hk).
    simpl. rewrite Hk; trivial. intros ->. congruence.
Qed.

Lemma insert_list_keeps (il : list Pair) (m : map) (k : K) (v : V) :
  consistent m = true -> value_of m k = Some v ->
  value_of (snd (insert_list il m)) k = Some v.
Proof.
  revert m. induction il as [|e il IH]; simpl; intros m C Hv; trivial.
  unfold bind. pose proof (insert_consistent e m C) as C'.
  pose proof (insert_keeps m e k v C Hv) as Hv'.
  destruct (insert e m) as [[r|x] m']; simpl in *; auto.
Qed.

(** Assigning through the reference that [at] returns changes the stored value. *)
Lemma store_value (m : map) (k : K) (p : BST.path) (d : Pair) (v : V) :
  consistent m = true ->
  BST.find_path (BST.root (bst m)) (Pair_of_key k) = Some p ->
  BST.data_at (BST.root (bst m)) p = Some d ->
  let m' := snd (store (node_second (Some p)) v m) in
  at_ k m' = (Return (node_second (Some p)), m') /\
  load m' (node_second (Some p)) = Some v /\
  value_of m' k = Some v /\
  size m' = size m.
Proof.
  intros C Hf Hd m'.
  assert (C' : consistent m' = true) by now apply store_consistent.
  assert (Hd' : BST.data_at (BST.root (bst m')) p = Some (make_pair (first d) v)).
  { apply data_at_set_second, Hd. }
  assert (Hk : first d = k).
  { destruct (find_path_sound _ _ _ Hf) as (d' & Hd2 & E).
    simpl in E. congruence. }
  repeat split.
  - apply at_found. simpl. now rewrite find_path_set_second.
  - now rewrite (load_node m' p _ Hd').
  - rewrite <- Hk. apply (value_of_node m' p _ C' Hd').
Qed.

Lemma skipn_nth_error {A : Type} (l : list A) (i : nat) (d : A) :
  nth_error l i = Some d -> skipn i l = d :: skipn (S i) l.
Proof.
  revert i. induction l as [|a l IH]; intros [|i]; simpl;
    try discriminate.
  - now intros [= ->].
  - intros E. now rewrite (IH i E).
Qed.

Lemma visit_end (fuel : nat) (m : map) :
  visit_from fuel m {| it := {| BST.pNode := None |} |} = Some [].
Proof. destruct fuel; reflexivity. Qed.

(** The loop from a node visits the rest of the in-order sequence. *)
Lemma visit_from_node (m : map) (fuel : nat) (p : BST.path) :
  BST.data_at (BST.root (bst m)) p <> None ->
  BST.count (BST.root (bst m)) - BST.rank (BST.root (bst m)) p <= fuel ->
  visit_from fuel m {| it := {| BST.pNode := Some p |} |} =
  Some (skipn (BST.rank (BST.root (bst m)) p) (to_list m)).
Proof.
  revert p. induction fuel as [|fuel IH]; intros p Hp Hfuel.
  - destruct (BST.data_at (BST.root (bst m)) p) as [d|] eqn:Hd; [|congruence].
    apply data_at_rank_lt in Hd. lia.
  - pose proof (successor_rank (BST.root (bst m)) p Hp) as Hsucc.
    destruct (BST.data_at (BST.root (bst m)) p) as [d|] eqn:Hd; [|congruence].
    pose proof (data_at_rank _ _ _ Hd) as Hnth.
    cbn [visit_from]. unfold iterator_ne, BST.iterator_ne, BST.iterator_eq.
    cbn [it BST.end_ BST.pNode negb].
    unfold dereference, BST.dereference. cbn [it BST.pNode]. rewrite Hd.
    unfold pre_increment, BST.increment. cbn [snd it BST.pNode].
    unfold to_list. rewrite (skipn_nth_error _ _ _ Hnth).
    destruct (BST.successor (BST.root (bst m)) p) as [q|].
    + destruct Hsucc as (Hr & Hq). rewrite (IH q Hq) by lia.
      unfold to_list. now rewrite Hr.
    + rewrite visit_end, skipn_all2; trivial.
      rewrite <- count_elements. lia.
Qed.

(** A full traversal visits the in-order sequence. *)
Lemma traverse_to_list (m : map) :
  consistent m = true -> traverse (size m) m = Some (to_list m).
Proof.
  intros C. apply consistent_iff in C as (_ & Hc).
  unfold traverse, BST.begin.
  destruct (BST.leftmost (BST.root (bst m))) as [p|] eqn:E.
  - destruct (leftmost_first _ _ E) as (Hr & Hp).
    rewrite visit_from_node; trivial.
    + now rewrite Hr.
    + unfold size, BST.size. lia.
  - rewrite visit_end. apply leftmost_leaf in E. unfold to_list.
    now rewrite E.
Qed.

Lemma keys_insert (m : map) (e : Pair) (k : K) :
  consistent m = true ->
  (In k (keys (to_list (snd (insert e m)))) <->
   k = first e \/ In k (keys (to_list m))).
Proof.
  intros C. pose proof C as C0. apply consistent_iff in C as (Hs & Hc).
  destruct (value_of m (first e)) as [w|] eqn:Ew.
  - destruct (insert_old m e w C0 Ew) as (p & -> & _ & Hd). simpl.
    apply data_at_In in Hd. split; auto. intros [->|]; trivial.
    unfold keys. apply in_map_iff. exists (make_pair (first e) w). auto.
  - unfold value_of in Ew. rewrite lookup_None in Ew.
    destruct (tree_insert_absent (bst m) e Hs Hc Ew)
      as (p & b' & l1 & l2 & E & E1 & E2 & _).
    unfold insert. rewrite E. unfold to_list, keys. simpl. rewrite E1, E2.
    rewrite !map_app. simpl. rewrite !in_app_iff. simpl.
    split; intros; intuition congruence.
Qed.

Lemma keys_insert_list (il : list Pair) (m : map) (k : K) :
  consistent m = true ->
  (In k (keys (to_list (snd (insert_list il m)))) <->
   In k (keys il) \/ In k (keys (to_list m))).
Proof.
  revert m. induction il as [|e il IH]; simpl; intros m C; [tauto|].
  unfold bind. pose proof (insert_consistent e m C) as C'.
  pose proof (keys_insert m e k C) as Hk.
  unfold insert in *.
  destruct (BST.insert (bst m) e true) as [rv b']. simpl in *.
  rewrite (IH _ C'), Hk. intuition congruence.
Qed.

Lemma filter_keeps (l : list Pair) (k : K) :
  (forall d, In d l -> first d <> k) ->
  filter (fun e => negb (eq_key (first e) k)) l = l.
Proof.
  induction l as [|a l IH]; simpl; intros Hno; trivial.
  destruct (eq_key (first a) k) eqn:E; simpl.
  - apply eq_key_spec in E. exfalso. apply (Hno a); auto.
  - now rewrite IH by auto.
Qed.

Lemma filter_drops (l1 l2 : list Pair) (d : Pair) :
  Ordered (l1 ++ d :: l2) ->
  filter (fun e => negb (eq_key (first e) (first d))) (l1 ++ d :: l2) = l1 ++ l2.
Proof.
  intros Hs. apply Ordered_app_cons in Hs as (_ & _ & F1 & F2).
  rewrite Forall_forall in F1, F2.
  rewrite filter_app. simpl.
  assert (E : eq_key (first d) (first d) = true) by now apply eq_key_spec.
  rewrite E. simpl. rewrite !filter_keeps; trivial.
  - intros x Hx. apply F2 in Hx. apply lt_pair_neq in Hx. congruence.
  - intros x Hx. apply F1 in Hx. now apply lt_pair_neq in Hx.
Qed.

End Access.

(** * The properties of the map *)

Section Properties.
Context {K V : Type} `{Comparable K} `{DefaultConstructible V}.
Import Map.
#[local] Abbreviation map := (Map.map K V).
#[local] Abbreviation Pair := (Pair K V).

Lemma subscript_as_insert (m m' : map) (k : K) (i : iterator) (b : bool) :
  insert (Pair_of_key k) m = (Return (i, b), m') ->
  subscript k m = (Return (node_second (BST.pNode (it i))), m').
Proof.
  unfold insert, subscript.
  destruct (BST.insert (bst m) (Pair_of_key k) true) as [[i0 b0] b'].
  simpl. intros [= <- <- <-]. reflexivity.
Qed.

Lemma erase_absent (m : map) (k : K) :
  value_of m k = None -> erase k m = (Return 0, m).
Proof.
  intros Hv. apply value_of_no_find in Hv.
  unfold erase, bind, find, end_, BST.find. now rewrite Hv.
Qed.

Lemma erase_present (m : map) (k : K) (v : V) :
  consistent m = true -> value_of m k = Some v ->
  exists m',
    erase k m = (Return 1, m') /\
    to_list m' = filter (fun e => negb (eq_key (first e) k)) (to_list m) /\
    S (size m') = size m /\
    value_of m' k = None /\
    (forall k', k' <> k -> value_of m' k' = value_of m k') /\
    consistent m' = true.
Proof.
  intros C Hv. destruct (value_of_find m k v C Hv) as (p & Hf & Hd).
  pose proof C as C0. apply consistent_iff in C as (Hs & Hc).
  destruct (tree_erase_node (bst m) p _ Hc Hd)
    as (l1 & l2 & E1 & _ & E2 & Hc' & Hn).
  pose proof (erase_iterator_consistent
                {| it := {| BST.pNode := Some p |} |} m C0) as C'.
  unfold erase, bind, find, end_, BST.find. rewrite Hf.
  unfold iterator_ne, BST.iterator_ne, BST.iterator_eq. simpl.
  unfold erase_iterator in *. simpl in *.
  destruct (BST.erase (bst m) {| BST.pNode := Some p |}) as [next b'].
  simpl in *. exists {| bst := b' |}.
  unfold to_list in *. simpl. rewrite E1 in Hs.
  repeat split; trivial.
  - rewrite E1, E2. symmetry. apply (filter_drops l1 l2 _ Hs).
  - unfold value_of, to_list. simpl. rewrite E2. apply lookup_None.
    intros d Hin Hk. apply Ordered_app_cons in Hs as (_ & _ & F1 & F2).
    rewrite Forall_forall in F1, F2. apply in_app_or in Hin as [Hin|Hin].
    + apply F1 in Hin. apply lt_pair_neq in Hin. simpl in Hin. congruence.
    + apply F2 in Hin. apply lt_pair_neq in Hin. simpl in Hin. congruence.
  - intros k' Hk'. unfold value_of, to_list. simpl. rewrite E1, E2.
    symmetry. apply lookup_skip. simpl. congruence.
Qed.

(** C1: the mutable [operator[]] on an absent key inserts the key with a
    default-constructed value, so that the size grows by one; on a stored
    key it changes nothing.  Either way the result is a reference to the
    value now stored under the key, and assigning through it changes that
    stored value. *)
Theorem subscript_access_or_create (m : map) (k : K) :
  consistent m = true ->
  exists r m',
    subscript k m = (Return r, m') /\
    consistent m' = true /\
    load m' r = value_of m' k /\
    (forall v, let m2 := snd (store r v m') in
       at_ k m2 = (Return r, m2) /\ load m2 r = Some v /\
       value_of m2 k = Some v /\ size m2 = size m') /\
    match value_of m k with
    | None =>
        size m' = S (size m) /\ value_of m' k = Some construct /\
        (forall k', k' <> k -> value_of m' k' = value_of m k')
    | Some v => m' = m /\ load m r = Some v
    end.
Proof.
  intros C. destruct (value_of m k) as [v|] eqn:Hv.
  - destruct (insert_old m (Pair_of_key k) v C Hv) as (p & E & Hf & Hd).
    apply subscript_as_insert in E. simpl in E, Hf, Hd.
    exists (node_second (Some p)), m. rewrite E.
    pose proof (load_node m p _ Hd) as Hl. simpl second in Hl.
    split; [reflexivity|]. split; [exact C|].
    split; [congruence|].
    split; [intros w; apply (store_value m k p _ w C Hf Hd)|].
    split; [reflexivity|exact Hl].
  - destruct (insert_new m (Pair_of_key k) C Hv)
      as (p & m' & E & C' & Hn & Hd & Hf & Hv' & Hk).
    apply subscript_as_insert in E. simpl in E, Hf, Hd, Hv', Hk.
    exists (node_second (Some p)), m'. rewrite E.
    pose proof (load_node m' p _ Hd) as Hl. simpl second in Hl.
    split; [reflexivity|]. split; [exact C'|].
    split; [congruence|].
    split; [intros w; apply (store_value m' k p _ w C' Hf Hd)|].
    split; [exact Hn|]. split; [exact Hv'|exact Hk].
Qed.

(** C2: [at] on a stored key returns a reference to the value stored under
    it; on an absent key it throws [out_of_range], inserts nothing and leaves
    the map as it was. *)
Theorem at_checked_access (m : map) (k : K) :
  consistent m = true ->
  match value_of m k with
  | Some v => exists r, at_ k m = (Return r, m) /\ load m r = Some v
  | None => at_ k m = (Throw (out_of_range "invalid map<K, T> key"), m)
  end.
Proof.
  intros C. destruct (value_of m k) as [v|] eqn:Hv.
  - destruct (value_of_find m k v C Hv) as (p & Hf & Hd).
    exists (node_second (Some p)). split; [now apply at_found|].
    now rewrite (load_node m p _ Hd).
  - apply at_missing, value_of_no_find, Hv.
Qed.

(** C3: [insert] hands the pair to the tree's insert with [keepUnique] set;
    for a pair whose key is stored the map is left as it was (same size, no
    second node for the key), and the result is the iterator to the node
    already there, with [false]. *)
Theorem insert_existing_key (m : map) (rhs : Pair) :
  insert rhs m =
    (Return ({| it := fst (fst (BST.insert (bst m) rhs true)) |},
             snd (fst (BST.insert (bst m) rhs true))),
     {| bst := snd (BST.insert (bst m) rhs true) |}) /\
  (forall v,
     consistent m = true -> value_of m (first rhs) = Some v ->
     exists i,
       insert rhs m = (Return (i, false), m) /\
       find (first rhs) m = (Return i, m) /\
       dereference m i = Some (make_pair (first rhs) v) /\
       NoDup (keys (to_list m))).
Proof.
  split.
  - unfold insert. destruct (BST.insert (bst m) rhs true) as [[i b] b'].
    reflexivity.
  - intros v C Hv. destruct (insert_old m rhs v C Hv) as (p & E & Hf & Hd).
    exists {| it := {| BST.pNode := Some p |} |}. repeat split; trivial.
    + unfold find, BST.find. now rewrite Hf.
    + apply consistent_iff in C as (Hs & _). now apply Ordered_NoDup.
Qed.

(** C4: once a pair (k, v) has been inserted ([insert] reports [true]), and
    whatever is inserted afterwards, [find] reaches an element whose
    dereference is (k, v) and [at] yields v; after [erase(k)], [find(k)] is
    [end()] and [at(k)] throws [out_of_range]. *)
Theorem round_trip (m m1 : map) (k : K) (v : V) (i : iterator)
    (more : list Pair) :
  consistent m = true ->
  insert (make_pair k v) m = (Return (i, true), m1) ->
  let m2 := snd (insert_list more m1) in
  (exists j, find k m2 = (Return j, m2) /\
             dereference m2 j = Some (make_pair k v)) /\
  (exists r, at_ k m2 = (Return r, m2) /\ load m2 r = Some v) /\
  (exists m3, erase k m2 = (Return 1, m3) /\
              find k m3 = end_ m3 /\
              at_ k m3 = (Throw (out_of_range "invalid map<K, T> key"), m3)).
Proof.
  intros C E m2.
  assert (Hnew : value_of m k = None).
  { destruct (value_of m k) as [w|] eqn:Hv; trivial.
    destruct (insert_old m (make_pair k v) w C Hv) as (p & E' & _).
    congruence. }
  destruct (insert_new m (make_pair k v) C Hnew)
    as (p & m' & E' & C1 & _ & _ & _ & Hv1 & _).
  assert (m' = m1) by congruence. subst m'. simpl in Hv1.
  assert (C2 : consistent m2 = true) by now apply insert_list_consistent.
  assert (Hv2 : value_of m2 k = Some v) by now apply insert_list_keeps.
  destruct (value_of_find m2 k v C2 Hv2) as (q & Hf & Hd).
  repeat split.
  - exists {| it := {| BST.pNode := Some q |} |}. split.
    + unfold find, BST.find. now rewrite Hf.
    + exact Hd.
  - exists (node_second (Some q)). split; [now apply at_found|].
    now rewrite (load_node m2 q _ Hd).
  - destruct (erase_present m2 k v C2 Hv2) as (m3 & E3 & _ & _ & Hv3 & _).
    exists m3. apply value_of_no_find in Hv3. repeat split; trivial.
    + unfold find, end_, BST.find, BST.end_. now rewrite Hv3.
    + now apply at_missing.
Qed.


(** C6: for every sequence of inserted pairs, the loop from [begin()] to
    [end()] with the iterator's increment ends and visits the stored
    elements in strictly increasing key order; the keys visited are those
    inserted.  The order holds as well after any other calls on the map. *)
Theorem traversal_in_key_order (il : list Pair) (ops : list operation) :
  (let m := snd (insert_list il empty_map) in
   exists visited,
     traverse (size m) m = Some visited /\
     visited = to_list m /\
     StronglySorted (fun a b => lt_key a b = true) (keys visited) /\
     (forall k, In k (keys visited) <-> In k (keys il))) /\
  (let m := run ops (snd (insert_list il empty_map)) in
   exists visited,
     traverse (size m) m = Some visited /\
     StronglySorted (fun a b => lt_key a b = true) (keys visited)).
Proof.
  assert (C : consistent (snd (insert_list il (empty_map : map))) = true)
    by now apply insert_list_consistent.
  split.
  - intros m. exists (to_list m). repeat split.
    + now apply traverse_to_list.
    + apply Ordered_keys. now apply consistent_iff in C as (Hs & _).
    + unfold m. rewrite keys_insert_list by reflexivity. simpl. tauto.
    + unfold m. rewrite keys_insert_list by reflexivity. simpl. tauto.
  - intros m.
    assert (C' : consistent m = true) by now apply run_consistent.
    exists (to_list m). split.
    + now apply traverse_to_list.
    + apply Ordered_keys. now apply consistent_iff in C' as (Hs & _).
Qed.

(** C7: [erase(k)] on an absent key returns 0 and leaves the map as it was;
    on a stored key it returns 1 and removes the element with key k and no
    other, so that the size drops by one. *)
Theorem erase_by_key (m : map) (k : K) :
  consistent m = true ->
  match value_of m k with
  | None => erase k m = (Return 0, m)
  | Some v =>
      exists m',
        erase k m = (Return 1, m') /\
        to_list m' = filter (fun e => negb (eq_key (first e) k)) (to_list m) /\
        S (size m') = size m /\
        value_of m' k = None /\
        (forall k', k' <> k -> value_of m' k' = value_of m k') /\
        consistent m' = true
  end.
Proof.
  intros C. destruct (value_of m k) as [v|] eqn:Hv.
  - now apply (erase_present m k v).
  - now apply erase_absent.
Qed.

(** C8: move construction and move assignment hand all elements of the
    source to the destination and leave the source empty, so that no node
    belongs to both maps.  For the assignment the two maps are two objects. *)
Theorem move_leaves_source_empty (h : @objects K V) (this rhs : nat) :
  (exists dest rhs',
     move_construct (h rhs) = (dest, rhs') /\
     to_list dest = to_list (h rhs) /\ size dest = size (h rhs) /\
     size rhs' = 0 /\ to_list rhs' = []) /\
  (this <> rhs ->
   exists h',
     move_assign this rhs h = (Return tt, h') /\
     to_list (h' this) = to_list (h rhs) /\ size (h' this) = size (h rhs) /\
     size (h' rhs) = 0 /\ to_list (h' rhs) = [] /\
     (forall a, a <> this -> a <> rhs -> h' a = h a)).
Proof.
  split.
  - eexists. eexists. split; [reflexivity|]. auto.
  - intros Hne. eexists. split; [reflexivity|].
    unfold update. rewrite Nat.eqb_refl.
    assert (E1 : Nat.eqb this rhs = false) by now apply Nat.eqb_neq.
    assert (E2 : Nat.eqb rhs this = false) by (apply Nat.eqb_neq; congruence).
    rewrite E1, E2, Nat.eqb_refl.
    repeat split.
    intros a Ha Hb. apply Nat.eqb_neq in Ha, Hb. now rewrite Ha, Hb.
Qed.

(** Moving a map onto itself leaves it empty: [clear()] runs first. *)
Lemma move_assign_self (h : @objects K V) (a : nat) :
  exists h',
    move_assign a a h = (Return tt, h') /\ to_list (h' a) = [] /\
    size (h' a) = 0.
Proof.
  eexists. split; [reflexivity|]. unfold update. rewrite Nat.eqb_refl. auto.
Qed.

(** The placeholder accessors of the second copy of the header hand out a
    heap value and never touch the map, whatever it holds. *)
Lemma placeholder_accessors (m : map) (k : K) :
  Skeleton.subscript k m = (Return Skeleton.heap_value, m) /\
  Skeleton.at_ k m = (Return Skeleton.heap_value, m).
Proof. split; reflexivity. Qed.

(** C10: the postfix decrement returns the iterator after the decrement, as
    the prefix decrement does, while the postfix increment returns the
    iterator as it was before the increment.  For an iterator at a node
    other than [begin()], what the postfix decrement returns is the in-order
    predecessor. *)
Theorem postfix_decrement_returns_decremented (m : map) (self : iterator) :
  post_decrement m self = pre_decrement m self /\
  fst (post_decrement m self) = Return (snd (post_decrement m self)) /\
  post_increment m self = (Return self, snd (pre_increment m self)) /\
  (forall p d b,
     BST.pNode (it self) = Some p ->
     BST.data_at (BST.root (bst m)) p = Some d ->
     fst (begin m) = Return b ->
     iterator_ne self b = true ->
     exists n j,
       nth_error (to_list m) (S n) = Some d /\
       fst (post_decrement m self) = Return j /\
       dereference m j <> None /\
       dereference m j = nth_error (to_list m) n).
Proof.
  repeat split.
  intros p d b Hp Hd [= <-] Hne.
  assert (Hvalid : BST.data_at (BST.root (bst m)) p <> None) by congruence.
  pose proof (predecessor_rank _ _ Hvalid) as Hpred.
  unfold post_decrement, BST.decrement. rewrite Hp. cbn [fst].
  destruct (BST.predecessor (BST.root (bst m)) p) as [q|].
  - destruct Hpred as (Hr & Hq).
    exists (BST.rank (BST.root (bst m)) q), {| it := {| BST.pNode := Some q |} |}.
    split; [unfold to_list; rewrite Hr; now apply data_at_rank|].
    split; [reflexivity|].
    unfold dereference, BST.dereference. cbn [it BST.pNode].
    split; [exact Hq|].
    destruct (BST.data_at (BST.root (bst m)) q) as [x|] eqn:Hx; [|congruence].
    unfold to_list. now rewrite (data_at_rank _ _ _ Hx).
  - apply rank_zero_leftmost in Hpred; trivial.
    unfold iterator_ne, BST.iterator_ne, BST.iterator_eq, BST.begin in Hne.
    simpl in Hne. rewrite Hp, Hpred in Hne.
    assert (Hpp : BST.path_eqb p p = true) by now apply path_eqb_eq.
    rewrite Hpp in Hne. discriminate.
Qed.

End Properties.

(** * Facts about the balance of the tree *)

Section Balance.
Context {T : Type}.
Import BST.

Ltac split_tree :=
  repeat (cbn beta iota;
    match goal with
    | |- context [match ?t with Leaf => _ | Node _ _ _ _ => _ end] =>
        is_var t; destruct t
    | |- context [match ?c with Red => _ | Black => _ end] =>
        is_var c; destruct c
    end).

Ltac colours :=
  simpl in *;
  intuition (subst; simpl in *; try discriminate; try congruence; try lia).

Lemma no_red_red_weaken (t : BNode T) : no_red_red t -> no_red_red_below t.
Proof. unfold no_red_red_below. destruct t; colours. Qed.

Lemma no_red_red_balance_left (l : BNode T) (d : T) (r : BNode T) :
  no_red_red_below l -> no_red_red r -> no_red_red (balance_left l d r).
Proof. unfold balance_left, no_red_red_below. split_tree; colours. Qed.

Lemma no_red_red_balance_right (l : BNode T) (d : T) (r : BNode T) :
  no_red_red l -> no_red_red_below r -> no_red_red (balance_right l d r).
Proof. unfold balance_right, no_red_red_below. split_tree; colours. Qed.

Lemma even_black_balance_left (l : BNode T) (d : T) (r : BNode T) :
  even_black l -> even_black r -> black_height l = black_height r ->
  even_black (balance_left l d r) /\
  black_height (balance_left l d r) = S (black_height l).
Proof. unfold balance_left. split_tree; colours. Qed.

Lemma even_black_balance_right (l : BNode T) (d : T) (r : BNode T) :
  even_black l -> even_black r -> black_height l = black_height r ->
  even_black (balance_right l d r) /\
  black_height (balance_right l d r) = S (black_height l).
Proof. unfold balance_right. split_tree; colours. Qed.

Lemma even_black_paint (c : color) (t : BNode T) :
  even_black t -> even_black (paint c t).
Proof. destruct t; colours. Qed.

(** A tree in balance is at most twice as high as its black height. *)
Lemma height_black_height (t : BNode T) :
  no_red_red t -> even_black t ->
  height t <= 2 * black_height t +
              match color_of t with Red => 1 | Black => 0 end.
Proof.
  induction t as [|c l IHl d r IHr]; simpl; [lia|].
  intros (Cl & Cr & Hc) (El & Er & Eh).
  specialize (IHl Cl El). specialize (IHr Cr Er).
  destruct c.
  - destruct (Hc eq_refl) as (Hl & Hr). rewrite Hl in IHl. rewrite Hr in IHr.
    lia.
  - destruct (color_of l), (color_of r); lia.
Qed.

(** A tree of black height h has at least 2^h - 1 nodes. *)
Lemma count_black_height (t : BNode T) :
  even_black t -> 2 ^ black_height t <= count t + 1.
Proof.
  induction t as [|c l IHl d r IHr]; simpl; [lia|].
  intros (El & Er & Eh). specialize (IHl El). specialize (IHr Er).
  rewrite Eh in IHl. destruct c; simpl; rewrite ?Eh; lia.
Qed.

(** The height of a red-black tree is logarithmic in its number of nodes. *)
Lemma red_black_height (t : BNode T) :
  red_black t -> height t <= 2 * Nat.log2 (count t + 1).
Proof.
  intros (Hc & He & Hroot).
  pose proof (height_black_height t Hc He) as Hh. rewrite Hroot in Hh.
  pose proof (count_black_height t He) as Hn.
  apply Nat.log2_le_mono in Hn. rewrite Nat.log2_pow2 in Hn by lia.
  lia.
Qed.

Lemma even_black_fix_left (l : BNode T) (d : T) (r : BNode T) :
  even_black l -> even_black r -> S (black_height l) = black_height r ->
  no_red_red r ->
  even_black (fix_left l d r) /\
  black_height (fix_left l d r) = black_height r.
Proof. (unfold fix_left, balance_right, paint; split_tree; colours). Qed.

Lemma no_red_red_fix_left (l : BNode T) (d : T) (r : BNode T) :
  no_red_red_below l -> no_red_red r -> color_of r = Black ->
  no_red_red (fix_left l d r).
Proof. (unfold fix_left, balance_right, no_red_red_below, paint; split_tree; colours). Qed.

Lemma no_red_red_below_fix_left (l : BNode T) (d : T) (r : BNode T) :
  no_red_red_below l -> no_red_red r -> no_red_red_below (fix_left l d r).
Proof. (unfold fix_left, balance_right, no_red_red_below, paint; split_tree; colours). Qed.

Lemma even_black_fix_right (l : BNode T) (d : T) (r : BNode T) :
  even_black l -> even_black r -> black_height l = S (black_height r) ->
  no_red_red l ->
  even_black (fix_right l d r) /\
  black_height (fix_right l d r) = black_height l.
Proof. (unfold fix_right, balance_left, paint; split_tree; colours). Qed.

Lemma no_red_red_fix_right (l : BNode T) (d : T) (r : BNode T) :
  no_red_red l -> no_red_red_below r -> color_of l = Black ->
  no_red_red (fix_right l d r).
Proof. (unfold fix_right, balance_left, no_red_red_below, paint; split_tree; colours). Qed.

Lemma no_red_red_below_fix_right (l : BNode T) (d : T) (r : BNode T) :
  no_red_red l -> no_red_red_below r -> no_red_red_below (fix_right l d r).
Proof. (unfold fix_right, balance_left, no_red_red_below, paint; split_tree; colours). Qed.

Lemma removal_left (c : color) (l l' : BNode T) (d : T) (r : BNode T) :
  l <> Leaf ->
  even_black (Node c l d r) -> no_red_red (Node c l d r) ->
  removal_result l l' ->
  removal_result (Node c l d r)
    (match color_of l with
     | Black => fix_left l' d r
     | Red => Node Red l' d r
     end).
Proof.
  intros Hl (El & Er & Eh) (Cl & Cr & Hc) (El' & HR & HB).
  destruct l as [|cl ll dl rl]; [congruence|]. clear Hl.
  destruct cl; cbn [color_of] in *.
  - destruct (HR eq_refl) as (Hh & Hn). clear HR HB.
    destruct c; [destruct (Hc eq_refl); discriminate|].
    unfold removal_result, no_red_red_below. colours.
  - destruct (HB eq_refl) as (Hh & Hn). clear HR HB.
    assert (Hs : S (black_height l') = black_height r).
    { rewrite Hh, <- Eh. simpl. lia. }
    destruct (even_black_fix_left l' d r El' Er Hs Cr) as (E1 & E2).
    split; [exact E1|]. split.
    + cbn [color_of]; intros ->. destruct (Hc eq_refl) as (_ & Hr).
      split; [cbn [black_height] in *; congruence|]. now apply no_red_red_fix_left.
    + cbn [color_of]; intros ->. split; [cbn [black_height] in *; lia|].
      now apply no_red_red_below_fix_left.
Qed.

Lemma removal_right (c : color) (l : BNode T) (d : T) (r r' : BNode T) :
  r <> Leaf ->
  even_black (Node c l d r) -> no_red_red (Node c l d r) ->
  removal_result r r' ->
  removal_result (Node c l d r)
    (match color_of r with
     | Black => fix_right l d r'
     | Red => Node Red l d r'
     end).
Proof.
  intros Hr (El & Er & Eh) (Cl & Cr & Hc) (Er' & HR & HB).
  destruct r as [|cr lr dr rr]; [congruence|]. clear Hr.
  destruct cr; cbn [color_of] in *.
  - destruct (HR eq_refl) as (Hh & Hn). clear HR HB.
    destruct c; [destruct (Hc eq_refl); discriminate|].
    unfold removal_result, no_red_red_below. colours.
  - destruct (HB eq_refl) as (Hh & Hn). clear HR HB.
    assert (Hs : black_height l = S (black_height r')).
    { rewrite Hh, Eh. simpl. lia. }
    destruct (even_black_fix_right l d r' El Er' Hs Cl) as (E1 & E2).
    split; [exact E1|]. split.
    + cbn [color_of]; intros ->. destruct (Hc eq_refl) as (Hl & _).
      split; [cbn [black_height] in *; congruence|]. now apply no_red_red_fix_right.
    + cbn [color_of]; intros ->. split; [cbn [black_height] in *; lia|].
      now apply no_red_red_below_fix_right.
Qed.

Lemma removal_split_min (t : BNode T) (x : T) (t' : BNode T) :
  split_min t = Some (x, t') ->
  even_black t -> no_red_red t -> removal_result t t'.
Proof.
  revert x t'. induction t as [|c l IHl d r IHr]; simpl; [discriminate|].
  intros x t'. destruct (split_min l) as [[y l']|] eqn:E.
  - intros [= <- <-] He Hn.
    apply removal_left; trivial.
    + cbn [color_of]; intros ->. discriminate.
    + apply (IHl y l' eq_refl); [apply He|apply Hn].
  - intros [= <- <-] (_ & Er & Eh) (_ & Cr & Hc).
    apply split_min_leaf in E. subst l. simpl in Eh.
    split; [exact Er|]. split.
    + cbn [color_of]; intros ->. split; [simpl; congruence|exact Cr].
    + cbn [color_of]; intros ->. split; [simpl; lia|now apply no_red_red_weaken].
Qed.

Lemma removal_remove_root (c : color) (l : BNode T) (d : T) (r : BNode T) :
  even_black (Node c l d r) -> no_red_red (Node c l d r) ->
  removal_result (Node c l d r) (remove_root l d r).
Proof.
  intros He Hn. pose proof He as (El & Er & Eh). pose proof Hn as (Cl & Cr & Hc).
  unfold remove_root. destruct l as [|cl ll dl rl].
  - destruct r as [|cr lr dr rr].
    + unfold removal_result, no_red_red_below. destruct c; colours.
    + split; [exact Er|]. split.
      * cbn [color_of]; intros ->. split; [simpl in *; congruence|exact Cr].
      * cbn [color_of]; intros ->. split; [simpl in *; lia|now apply no_red_red_weaken].
  - destruct r as [|cr lr dr rr].
    + split; [exact El|]. split.
      * cbn [color_of]; intros ->. split; [reflexivity|exact Cl].
      * cbn [color_of]; intros ->. split; [simpl in *; lia|now apply no_red_red_weaken].
    + destruct (split_min (Node cr lr dr rr)) as [[x r']|] eqn:E.
      * pose proof (removal_split_min _ _ _ E Er Cr) as Hr.
        assert (Hnode : Node cr lr dr rr <> Leaf) by discriminate.
        exact (removal_right c (Node cl ll dl rl) x (Node cr lr dr rr) r'
                 Hnode He Hn Hr).
      * apply split_min_leaf in E. discriminate.
Qed.

Lemma removal_remove_at (p : path) (t : BNode T) :
  even_black t -> no_red_red t -> removal_result t (remove_at p t).
Proof.
  revert p. induction t as [|c l IHl d r IHr]; intros p He Hn.
  - unfold removal_result, no_red_red_below. colours.
  - pose proof He as (El & Er & Eh). pose proof Hn as (Cl & Cr & Hc).
    destruct p as [|[] q]; cbn [remove_at].
    + now apply removal_remove_root.
    + destruct l as [|cl ll dl rl].
      * simpl. unfold removal_result, no_red_red_below. destruct c; colours.
      * specialize (IHl q El Cl).
        assert (Hnode : Node cl ll dl rl <> Leaf) by discriminate.
        pose proof (removal_left c _ (remove_at q (Node cl ll dl rl)) d r
                      Hnode He Hn IHl) as Hrem.
        destruct cl; exact Hrem.
    + destruct r as [|cr lr dr rr].
      * simpl. unfold removal_result, no_red_red_below. destruct c; colours.
      * specialize (IHr q Er Cr).
        assert (Hnode : Node cr lr dr rr <> Leaf) by discriminate.
        pose proof (removal_right c l d _ (remove_at q (Node cr lr dr rr))
                      Hnode He Hn IHr) as Hrem.
        destruct cr; exact Hrem.
Qed.

Lemma red_black_remove_at (p : path) (t : BNode T) :
  red_black t -> red_black (paint Black (remove_at p t)).
Proof.
  intros (Hn & He & Hc).
  destruct (removal_remove_at p t He Hn) as (He' & _ & HB).
  destruct (HB Hc) as (_ & Hn').
  split; [exact Hn'|]. split.
  - destruct (remove_at p t); simpl in *; tauto.
  - destruct (remove_at p t); reflexivity.
Qed.
End Balance.

Section BalanceInsert.
Context {K V : Type} `{Comparable K}.
#[local] Abbreviation T := (Pair K V).
Import BST.

Lemma no_red_red_ins (e : T) (t : BNode T) :
  no_red_red t ->
  no_red_red_below (ins e t) /\ (color_of t = Black -> no_red_red (ins e t)).
Proof.
  induction t as [|c l IHl d r IHr]; [unfold no_red_red_below; simpl; tauto|].
  intros (Cl & Cr & Hc). specialize (IHl Cl). specialize (IHr Cr).
  destruct IHl as (Bl & Nl). destruct IHr as (Br & Nr).
  destruct c; simpl.
  - destruct (Hc eq_refl) as (Hl & Hr).
    destruct (pair_lt e d); unfold no_red_red_below; simpl;
      intuition discriminate.
  - destruct (pair_lt e d).
    + pose proof (no_red_red_balance_left _ d r Bl Cr) as Hb.
      split; [now apply no_red_red_weaken|auto].
    + pose proof (no_red_red_balance_right l d _ Cl Br) as Hb.
      split; [now apply no_red_red_weaken|auto].
Qed.

Lemma even_black_ins (e : T) (t : BNode T) :
  even_black t ->
  even_black (ins e t) /\ black_height (ins e t) = black_height t.
Proof.
  induction t as [|c l IHl d r IHr]; [simpl; tauto|].
  intros (El & Er & Eh). specialize (IHl El). specialize (IHr Er).
  destruct IHl as (Il & Hl). destruct IHr as (Ir & Hr).
  destruct c; simpl.
  - destruct (pair_lt e d); simpl; intuition congruence.
  - destruct (pair_lt e d).
    + destruct (even_black_balance_left (ins e l) d r) as (E1 & E2);
        trivial; [congruence|]. split; [exact E1|congruence].
    + destruct (even_black_balance_right l d (ins e r)) as (E1 & E2);
        trivial; [congruence|]. split; [exact E1|congruence].
Qed.

(** Attaching a node and painting the root black keeps the tree red-black. *)
Lemma red_black_ins (e : T) (t : BNode T) :
  red_black t -> red_black (paint Black (ins e t)).
Proof.
  intros (Hc & He & _).
  destruct (no_red_red_ins e t Hc) as (Hb & _).
  destruct (even_black_ins e t He) as (He' & _).
  split; [exact Hb|]. split; [now apply even_black_paint|].
  destruct (ins e t); reflexivity.
Qed.

End BalanceInsert.

(** * The balance of the map's tree *)

Section Height.
Context {K V : Type} `{Comparable K} `{DefaultConstructible V}.
Import Map.
#[local] Abbreviation map := (Map.map K V).
#[local] Abbreviation Pair := (Pair K V).

Lemma tree_insert_balanced (b : BST.BST Pair) (e : Pair) (keepUnique : bool) :
  BST.red_black (BST.root b) ->
  BST.red_black (BST.root (snd (BST.insert b e keepUnique))).
Proof.
  intros Hb. unfold BST.insert.
  destruct (if keepUnique then BST.find_path (BST.root b) e else None);
    simpl; trivial.
  now apply red_black_ins.
Qed.

Lemma tree_erase_balanced (b : BST.BST Pair) (i : BST.iterator) :
  BST.red_black (BST.root b) ->
  BST.red_black (BST.root (snd (BST.erase b i))).
Proof.
  intros Hb. unfold BST.erase. destruct (BST.pNode i) as [p|]; trivial.
  destruct (BST.data_at (BST.root b) p); simpl; trivial.
  now apply red_black_remove_at.
Qed.

Lemma set_second_colours (t : BST.BNode Pair) (p : BST.path) (v : V) :
  BST.color_of (set_second t p v) = BST.color_of t /\
  BST.black_height (set_second t p v) = BST.black_height t /\
  (BST.no_red_red t -> BST.no_red_red (set_second t p v)) /\
  (BST.even_black t -> BST.even_black (set_second t p v)).
Proof.
  revert p. induction t as [|c l IHl d r IHr]; intros p; [simpl; tauto|].
  destruct p as [|[] q].
  - simpl. tauto.
  - destruct (IHl q) as (E1 & E2 & E3 & E4). simpl.
    rewrite E1, E2. destruct c; tauto.
  - destruct (IHr q) as (E1 & E2 & E3 & E4). simpl.
    rewrite E1, E2. destruct c; tauto.
Qed.

Lemma insert_balanced (rhs : Pair) (m : map) :
  balanced m -> balanced (snd (insert rhs m)).
Proof.
  unfold balanced, insert. intros Hb.
  pose proof (tree_insert_balanced (bst m) rhs true Hb) as Hb'.
  destruct (BST.insert (bst m) rhs true) as [rv b']. exact Hb'.
Qed.

Lemma subscript_balanced (key : K) (m : map) :
  balanced m -> balanced (snd (subscript key m)).
Proof.
  unfold balanced, subscript. intros Hb.
  pose proof (tree_insert_balanced (bst m) (Pair_of_key key) true Hb) as Hb'.
  destruct (BST.insert (bst m) (Pair_of_key key) true) as [rv b']. exact Hb'.
Qed.

Lemma store_balanced (r : reference K V) (v : V) (m : map) :
  balanced m -> balanced (snd (store r v m)).
Proof.
  unfold balanced. intros (Hn & He & Hc).
  destruct r as [[p|]|probe]; simpl; unfold BST.red_black; auto.
  destruct (set_second_colours (BST.root (bst m)) p v) as (E1 & _ & E3 & E4).
  rewrite E1. auto.
Qed.

Lemma erase_iterator_balanced (i : iterator) (m : map) :
  balanced m -> balanced (snd (erase_iterator i m)).
Proof.
  unfold balanced, erase_iterator. intros Hb.
  pose proof (tree_erase_balanced (bst m) (it i) Hb) as Hb'.
  destruct (BST.erase (bst m) (it i)) as [next b']. exact Hb'.
Qed.

Lemma erase_balanced (k : K) (m : map) :
  balanced m -> balanced (snd (erase k m)).
Proof.
  unfold erase, bind, find, end_. intros Hb. simpl.
  destruct (iterator_ne _ _); simpl; trivial.
  pose proof (erase_iterator_balanced
                {| it := BST.find (bst m) (Pair_of_key k) |} m Hb) as Hb'.
  destruct (erase_iterator _ m) as [[next|e] m']; exact Hb'.
Qed.

Lemma perform_balanced (op : operation) (m : map) :
  balanced m -> balanced (perform op m).
Proof.
  intros Hb. destruct op as [rhs|key|key v|key|i|]; simpl.
  - now apply insert_balanced.
  - now apply subscript_balanced.
  - unfold bind. pose proof (subscript_balanced key m Hb) as Hb'.
    destruct (subscript key m) as [[r|e] m']; simpl in *; trivial.
    now apply store_balanced.
  - now apply erase_balanced.
  - now apply erase_iterator_balanced.
  - unfold balanced, BST.red_black. simpl. auto.
Qed.

Lemma run_balanced (ops : list operation) (m : map) :
  balanced m -> balanced (run ops m).
Proof.
  revert m. unfold run.
  induction ops as [|op ops IH]; simpl; intros m Hb; trivial.
  apply IH, perform_balanced, Hb.
Qed.

Lemma insert_list_balanced (il : list Pair) (m : map) :
  balanced m -> balanced (snd (insert_list il m)).
Proof.
  revert m. induction il as [|e il IH]; simpl; intros m Hb; trivial.
  unfold bind. pose proof (insert_balanced e m Hb) as Hb'.
  destruct (insert e m) as [[r|x] m']; simpl in *; auto.
Qed.

Lemma empty_map_balanced : balanced (empty_map : map).
Proof. unfold balanced, BST.red_black. simpl. auto. Qed.

(** A consistent map in balance has a tree of logarithmic height. *)
Lemma balanced_height (m : map) :
  consistent m = true -> balanced m ->
  BST.height (BST.root (bst m)) <= 2 * Nat.log2 (size m + 1).
Proof.
  intros C Hb. apply consistent_iff in C as (_ & Hc).
  unfold size, BST.size. rewrite Hc. now apply red_black_height.
Qed.

Lemma insert_size (e : Pair) (m : map) :
  consistent m = true ->
  size (snd (insert e m)) =
  match value_of m (first e) with
  | Some _ => size m
  | None => S (size m)
  end.
Proof.
  intros C. destruct (value_of m (first e)) as [w|] eqn:Ew.
  - now destruct (insert_old m e w C Ew) as (p & -> & _).
  - destruct (insert_new m e C Ew) as (p & m' & -> & _ & Hs & _). exact Hs.
Qed.

Lemma insert_list_size_le (il : list Pair) (m : map) :
  consistent m = true ->
  size (snd (insert_list il m)) <= size m + length il.
Proof.
  revert m. induction il as [|e il IH]; simpl; intros m C; [lia|].
  unfold bind. pose proof (insert_consistent e m C) as C'.
  pose proof (insert_size e m C) as Hs.
  unfold insert in *. destruct (BST.insert (bst m) e true) as [rv b'].
  simpl in *. specialize (IH _ C').
  destruct (value_of m (first e)); lia.
Qed.

Lemma insert_list_size_distinct (il : list Pair) (m : map) :
  consistent m = true -> NoDup (keys il) ->
  (forall k, In k (keys il) -> value_of m k = None) ->
  size (snd (insert_list il m)) = size m + length il.
Proof.
  revert m. induction il as [|e il IH]; simpl; intros m C Hnd Hnew; [lia|].
  inversion Hnd as [|? ? Hnotin Hnd']; subst.
  unfold bind. pose proof (insert_consistent e m C) as C'.
  pose proof (insert_size e m C) as Hs.
  rewrite (Hnew (first e)) in Hs by auto.
  assert (Hrest : forall k, In k (keys il) ->
                            value_of (snd (insert e m)) k = None).
  { intros k Hk.
    destruct (insert_new m e C (Hnew _ (or_introl eq_refl)))
      as (p & m' & -> & _ & _ & _ & _ & _ & Hother).
    simpl. rewrite Hother; [apply Hnew; auto|].
    intros ->. contradiction. }
  unfold insert in *. destruct (BST.insert (bst m) e true) as [rv b'].
  simpl in *. rewrite (IH _ C' Hnd' Hrest). lia.
Qed.

(** The height after any calls, and after any insertions. *)
Lemma height_after_calls (ops : list operation) (il : list Pair) :
  (let m := run ops empty_map in
   BST.height (BST.root (bst m)) <= 2 * Nat.log2 (size m + 1)) /\
  (let m := snd (insert_list il empty_map) in
   BST.height (BST.root (bst m)) <= 2 * Nat.log2 (size m + 1) /\
   BST.height (BST.root (bst m)) <= 2 * Nat.log2 (length il + 1) /\
   (NoDup (keys il) -> size m = length il)).
Proof.
  split.
  - apply balanced_height.
    + now apply run_consistent.
    + apply run_balanced, empty_map_balanced.
  - intros m.
    assert (C : consistent m = true) by now apply insert_list_consistent.
    assert (Hb : balanced m) by apply insert_list_balanced, empty_map_balanced.
    pose proof (balanced_height m C Hb) as Hh.
    pose proof (insert_list_size_le il empty_map eq_refl) as Hle.
    fold m in Hle. change (size empty_map) with 0 in Hle.
    split; [exact Hh|]. split.
    + eapply Nat.le_trans; [exact Hh|].
      apply Nat.mul_le_mono_l, Nat.log2_le_mono. lia.
    + intros Hnd. unfold m.
      rewrite insert_list_size_distinct; trivial.
Qed.

End Height.

(** C9: whatever the calls made on a map, and so for every order in which
    keys are inserted, the height of the tree is at most twice the binary
    logarithm of the number of elements plus one.  After inserting 1 .. N
    in increasing order the map holds N elements and the height is at most
    2 * log2 (N + 1), which is at most 4 * log2 N from N = 2 on. *)
Theorem height_logarithmic :
  (forall (K V : Type) (HK : Comparable K) (HV : DefaultConstructible V)
          (ops : list (Map.operation (K := K) (V := V))),
     let m := Map.run ops Map.empty_map in
     BST.height (BST.root (Map.bst m)) <= 2 * Nat.log2 (Map.size m + 1)) /\
  (forall (K V : Type) (HK : Comparable K) (HV : DefaultConstructible V)
          (il : list (Pair K V)),
     let m := snd (Map.insert_list il Map.empty_map) in
     BST.height (BST.root (Map.bst m)) <= 2 * Nat.log2 (Map.size m + 1) /\
     BST.height (BST.root (Map.bst m)) <= 2 * Nat.log2 (length il + 1) /\
     (NoDup (Map.keys il) -> Map.size m = length il)) /\
  (forall N : nat,
     let m := snd (Map.insert_list (ascending N) Map.empty_map) in
     Map.size m = N /\
     BST.height (BST.root (Map.bst m)) <= 2 * Nat.log2 (N + 1) /\
     (2 <= N -> BST.height (BST.root (Map.bst m)) <= 4 * Nat.log2 N)).
Proof.
  split; [|split].
  - intros K V HK HV ops. apply (height_after_calls ops []).
  - intros K V HK HV il. apply (height_after_calls [] il).
  - intros N m.
    destruct (height_after_calls [] (ascending N)) as (_ & Hh & _ & Hsize).
    fold m in Hh, Hsize.
    assert (Hlen : length (ascending N) = N).
    { unfold ascending. now rewrite length_map, length_seq. }
    assert (Hn : Map.size m = N).
    { rewrite Hlen in Hsize. apply Hsize. unfold Map.keys, ascending.
      rewrite map_map. simpl. rewrite map_id. apply seq_NoDup. }
    rewrite Hn in Hh. split; [exact Hn|]. split; [exact Hh|].
    intros HN. eapply Nat.le_trans; [exact Hh|].
    replace (N + 1) with (S N) by lia.
    pose proof (Nat.log2_succ_le N) as Hs.
    assert (Hpos : 1 <= Nat.log2 N).
    { change 1 with (Nat.log2 2). apply Nat.log2_le_mono. exact HN. }
    lia.
Qed.

(** * The properties at work on the map [fruit] *)

Lemma subscript_access_or_create_witness :
  (exists r m',
     Map.subscript 4 fruit = (Return r, m') /\
     Map.consistent m' = true /\
     Map.load m' r = Map.value_of m' 4 /\
     (forall v, let m2 := snd (Map.store r v m') in
        Map.at_ 4 m2 = (Return r, m2) /\ Map.load m2 r = Some v /\
        Map.value_of m2 4 = Some v /\ Map.size m2 = Map.size m') /\
     Map.size m' = 5 /\ Map.value_of m' 4 = Some 0 /\
     (forall k', k' <> 4 -> Map.value_of m' k' = Map.value_of fruit k')) /\
  (exists r m',
     Map.subscript 3 fruit = (Return r, m') /\
     Map.consistent m' = true /\
     Map.load m' r = Map.value_of m' 3 /\
     (forall v, let m2 := snd (Map.store r v m') in
        Map.at_ 3 m2 = (Return r, m2) /\ Map.load m2 r = Some v /\
        Map.value_of m2 3 = Some v /\ Map.size m2 = Map.size m') /\
     m' = fruit /\ Map.load fruit r = Some 30).
Proof.
  split.
  - refine (subscript_access_or_create fruit 4 _). reflexivity.
  - refine (subscript_access_or_create fruit 3 _). reflexivity.
Defined.

Lemma at_checked_access_witness :
  (exists r, Map.at_ 8 fruit = (Return r, fruit) /\ Map.load fruit r = Some 80) /\
  Map.at_ 7 fruit = (Throw (out_of_range "invalid map<K, T> key"), fruit).
Proof.
  split.
  - refine (at_checked_access fruit 8 _). reflexivity.
  - refine (at_checked_access fruit 7 _). reflexivity.
Defined.

Lemma insert_existing_key_witness :
  exists i,
    Map.insert (make_pair 5 99) fruit = (Return (i, false), fruit) /\
    Map.find 5 fruit = (Return i, fruit) /\
    Map.dereference fruit i = Some (make_pair 5 50) /\
    NoDup (Map.keys (Map.to_list fruit)).
Proof.
  refine (proj2 (insert_existing_key fruit (make_pair 5 99)) 50 _ _);
    reflexivity.
Defined.

Lemma round_trip_witness :
  let m1 := snd (Map.insert (make_pair 4 40) fruit) in
  let m2 := snd (Map.insert_list [make_pair 9 90; make_pair 4 44] m1) in
  (exists j, Map.find 4 m2 = (Return j, m2) /\
             Map.dereference m2 j = Some (make_pair 4 40)) /\
  (exists r, Map.at_ 4 m2 = (Return r, m2) /\ Map.load m2 r = Some 40) /\
  (exists m3, Map.erase 4 m2 = (Return 1, m3) /\
              Map.find 4 m3 = Map.end_ m3 /\
              Map.at_ 4 m3 =
                (Throw (out_of_range "invalid map<K, T> key"), m3)).
Proof.
  refine (round_trip fruit (snd (Map.insert (make_pair 4 40) fruit)) 4 40
            {| Map.it := {| BST.pNode := Some [BST.R; BST.L] |} |}
            [make_pair 9 90; make_pair 4 44] _ _);
    reflexivity.
Defined.


Lemma erase_by_key_witness :
  Map.erase 2 fruit = (Return 0, fruit) /\
  (exists m',
     Map.erase 3 fruit = (Return 1, m') /\
     Map.to_list m' = [make_pair 1 10; make_pair 5 50; make_pair 8 80] /\
     S (Map.size m') = 4 /\
     Map.value_of m' 3 = None /\
     (forall k', k' <> 3 -> Map.value_of m' k' = Map.value_of fruit k') /\
     Map.consistent m' = true).
Proof.
  split.
  - refine (erase_by_key fruit 2 _). reflexivity.
  - refine (erase_by_key fruit 3 _). reflexivity.
Defined.

Lemma postfix_decrement_returns_decremented_witness :
  exists n j,
    nth_error (Map.to_list fruit) (S n) = Some (make_pair 5 50) /\
    fst (Map.post_decrement fruit
           {| Map.it := BST.find (Map.bst fruit) (make_pair 5 0) |}) = Return j /\
    Map.dereference fruit j <> None /\
    Map.dereference fruit j = nth_error (Map.to_list fruit) n.
Proof.
  refine (proj2 (proj2 (proj2
            (postfix_decrement_returns_decremented fruit
               {| Map.it := BST.find (Map.bst fruit) (make_pair 5 0) |})))
            [BST.R] (make_pair 5 50) {| Map.it := BST.begin (Map.bst fruit) |}
            _ _ _ _);
    reflexivity.
Defined.

Lemma height_logarithmic_witness :
  let m := snd (Map.insert_list (ascending 7) Map.empty_map) in
  Map.size m = 7 /\
  BST.height (BST.root (Map.bst m)) <= 6 /\
  BST.height (BST.root (Map.bst m)) <= 8.
Proof.
  destruct (proj2 (proj2 height_logarithmic) 7) as (Hn & Hh & Hc).
  split; [exact Hn|]. split; [exact Hh|].
  apply Hc. lia.
Defined.

Lemma move_leaves_source_empty_witness :
  exists h',
    Map.move_assign 1 0 shelf = (Return tt, h') /\
    Map.to_list (h' 1) =
      [make_pair 1 10; make_pair 3 30; make_pair 5 50; make_pair 8 80] /\
    Map.size (h' 1) = 4 /\
    Map.size (h' 0) = 0 /\ Map.to_list (h' 0) = [] /\
    (forall a, a <> 1 -> a <> 0 -> h' a = shelf a).
Proof.
  refine (proj2 (move_leaves_source_empty shelf 1 0) _). lia.
Defined.

(** * Usage, as in the README *)

Example assign_on_empty_map :
  let m : Map.map nat nat := Map.perform (Map.call_assign 4 9) Map.empty_map in
  Map.size m = 1 /\ Map.value_of m 4 = Some 9 /\
  Map.iterator_ne (match fst (Map.find 4 m) with
                   | Return i => i
                   | Throw _ => {| Map.it := BST.end_ (Map.bst m) |}
                   end)
                  {| Map.it := BST.end_ (Map.bst m) |} = true.
Proof. repeat split. Qed.

Example first_insertion_wins :
  Map.to_list (Map.of_list [make_pair 2 20; make_pair 1 10; make_pair 2 99]) =
  [make_pair 1 10; make_pair 2 20].
Proof. reflexivity. Qed.

Example erase_then_find :
  let m := snd (Map.erase 5 fruit) in
  fst (Map.find 5 m) = fst (Map.end_ m) /\ fst (Map.erase 7 m) = Return 0 /\
  Map.traverse (Map.size m) m =
    Some [make_pair 1 10; make_pair 3 30; make_pair 8 80].
Proof. repeat split. Qed.

(** * Further properties of the map layer *)

Section Positions.
Context {T : Type}.
Import BST.

(** Two nodes of a tree at the same rank are the same node. *)
Lemma rank_injective (t : BNode T) (p q : path) :
  data_at t p <> None -> data_at t q <> None ->
  rank t p = rank t q -> p = q.
Proof.
  unfold data_at. revert p q.
  induction t as [|c l IHl d r IHr]; intros p q;
    [destruct p as [|[] ?]; simpl; congruence|].
  destruct p as [|[] p'], q as [|[] q']; simpl; intros Hp Hq E;
    try reflexivity.
  - assert (Hlt : rank l q' < count l).
    { destruct (data_at l q') as [x|] eqn:Hx.
      - eapply data_at_rank_lt; eassumption.
      - unfold data_at in Hx. destruct (subtree l q'); congruence. }
    lia.
  - lia.
  - assert (Hlt : rank l p' < count l).
    { destruct (data_at l p') as [x|] eqn:Hx.
      - eapply data_at_rank_lt; eassumption.
      - unfold data_at in Hx. destruct (subtree l p'); congruence. }
    lia.
  - f_equal. now apply IHl.
  - assert (Hlt : rank l p' < count l).
    { destruct (data_at l p') as [x|] eqn:Hx.
      - eapply data_at_rank_lt; eassumption.
      - unfold data_at in Hx. destruct (subtree l p'); congruence. }
    lia.
  - lia.
  - assert (Hlt : rank l q' < count l).
    { destruct (data_at l q') as [x|] eqn:Hx.
      - eapply data_at_rank_lt; eassumption.
      - unfold data_at in Hx. destruct (subtree l q'); congruence. }
    lia.
  - f_equal. apply IHr; trivial. lia.
Qed.

(** Stepping forward and then back, or back and then forward, returns to
    the node. *)
Lemma predecessor_successor (t : BNode T) (p q : path) :
  data_at t p <> None -> successor t p = Some q -> predecessor t q = Some p.
Proof.
  intros Hp Hs. pose proof (successor_rank t p Hp) as Hr.
  rewrite Hs in Hr. destruct Hr as (Hr & Hq).
  pose proof (predecessor_rank t q Hq) as Hb.
  destruct (predecessor t q) as [p'|]; [|lia].
  destruct Hb as (Hb & Hp'). f_equal.
  apply (rank_injective t); trivial. lia.
Qed.

Lemma successor_predecessor (t : BNode T) (p q : path) :
  data_at t p <> None -> predecessor t p = Some q -> successor t q = Some p.
Proof.
  intros Hp Hs. pose proof (predecessor_rank t p Hp) as Hr.
  rewrite Hs in Hr. destruct Hr as (Hr & Hq).
  pose proof (successor_rank t q Hq) as Hb.
  destruct (successor t q) as [p'|].
  - destruct Hb as (Hb & Hp'). f_equal.
    apply (rank_injective t); trivial. lia.
  - destruct (data_at t p) as [x|] eqn:Hx; [|congruence].
    apply data_at_rank_lt in Hx. lia.
Qed.

End Positions.

Section Further.
Context {K V : Type} `{Comparable K} `{DefaultConstructible V}.
Import Map.
#[local] Abbreviation map := (Map.map K V).
#[local] Abbreviation Pair := (Pair K V).

Lemma lookup_cons (e : Pair) (il : list Pair) (k : K) :
  lookup (e :: il) k = if eq_key (first e) k then Some (second e) else lookup il k.
Proof. unfold lookup. simpl. now destruct (eq_key (first e) k). Qed.

Lemma insert_list_first_wins (il : list Pair) (m : map) (k : K) :
  consistent m = true ->
  value_of (snd (insert_list il m)) k =
  match value_of m k with
  | Some v => Some v
  | None => lookup il k
  end.
Proof.
  revert m. induction il as [|e il IH]; intros m C.
  - simpl. now destruct (value_of m k).
  - pose proof (insert_consistent e m C) as C'.
    assert (Hstep : value_of (snd (insert e m)) k =
                    match value_of m k with
                    | Some v => Some v
                    | None => if eq_key (first e) k then Some (second e) else None
                    end).
    { destruct (value_of m k) as [v|] eqn:Hv.
      - now apply insert_keeps.
      - destruct (eq_key (first e) k) eqn:Ek.
        + apply eq_key_spec in Ek. subst k.
          now destruct (insert_new m e C Hv)
            as (p & m' & -> & _ & _ & _ & _ & Hv' & _).
        + assert (Hne : k <> first e).
          { intros ->. assert (Ht : eq_key (first e) (first e) = true)
              by now apply eq_key_spec.
            congruence. }
          destruct (value_of m (first e)) as [w|] eqn:Ew.
          * now destruct (insert_old m e w C Ew) as (p & -> & _).
          * destruct (insert_new m e C Ew)
              as (p & m' & -> & _ & _ & _ & _ & _ & Hk).
            simpl. now rewrite Hk. }
    simpl. unfold bind. unfold insert in *.
    destruct (BST.insert (bst m) e true) as [rv b']. simpl in *.
    rewrite (IH _ C'), Hstep, lookup_cons.
    destruct (value_of m k); trivial.
    now destruct (eq_key (first e) k).
Qed.

(** X1: assigning or constructing from a list of pairs: what the map held before
    is gone, and for every key the first pair of the list with that key is
    the one stored; a key that no pair carries is not stored. *)
Theorem list_assignment_first_wins (il : list Pair) (m : map) (k : K) :
  let m' := snd (assign_list il m) in
  value_of m' k = lookup il k /\
  value_of (of_list il) k = lookup il k /\
  to_list m' = to_list (of_list il) /\
  size m' <= length il /\
  consistent m' = true.
Proof.
  assert (E : snd (assign_list il m) = of_list il) by reflexivity.
  cbn zeta. rewrite E. unfold of_list, assign_list, bind, clear. simpl.
  repeat split.
  - now rewrite insert_list_first_wins.
  - now rewrite insert_list_first_wins.
  - apply (insert_list_size_le il empty_map). reflexivity.
  - now apply insert_list_consistent.
Qed.

(** X2: the range insert and the list insert into a map that already holds
    elements: a stored key keeps its value, and among the pairs given the
    first one with a new key wins. *)
Theorem insert_list_keeps_first (il : list Pair) (m : map) (k : K) :
  consistent m = true ->
  value_of (snd (insert_list il m)) k =
    match value_of m k with
    | Some v => Some v
    | None => lookup il k
    end /\
  size m <= size (snd (insert_list il m)) <= size m + length il.
Proof.
  intros C. split; [now apply insert_list_first_wins|].
  split; [|now apply insert_list_size_le].
  clear k. revert m C. induction il as [|e il IH]; intros m C; [simpl; lia|].
  pose proof (insert_consistent e m C) as C'.
  pose proof (insert_size e m C) as Hs.
  simpl. unfold bind. unfold insert in *.
  destruct (BST.insert (bst m) e true) as [rv b']. simpl in *.
  specialize (IH _ C'). destruct (value_of m (first e)); lia.
Qed.

Lemma count_zero_leaf (t : BST.BNode Pair) : BST.count t = 0 -> t = BST.Leaf.
Proof. destruct t; simpl; [trivial|lia]. Qed.

(** X3: [empty()] is true exactly when [begin()] equals [end()], that is when
    nothing is stored. *)
Theorem empty_iff_begin_is_end (m : map) (b e : iterator) :
  consistent m = true ->
  fst (begin m) = Return b -> fst (end_ m) = Return e ->
  empty m = iterator_eq b e /\ (empty m = true <-> to_list m = []).
Proof.
  intros C [= <-] [= <-]. apply consistent_iff in C as (_ & Hc).
  unfold empty, size, BST.size, iterator_eq, BST.iterator_eq, BST.begin,
    to_list. simpl. rewrite Hc.
  destruct (BST.root (bst m)) as [|c l d r] eqn:Er.
  - simpl. split; [reflexivity|]. split; reflexivity.
  - assert (Hn : BST.count (BST.Node c l d r) <> 0) by (simpl; lia).
    apply Nat.eqb_neq in Hn. rewrite Hn.
    destruct (BST.leftmost (BST.Node c l d r)) as [p|] eqn:El.
    + split; [reflexivity|]. split; [discriminate|].
      simpl. intros E. destruct (BST.elements l); discriminate.
    + apply leftmost_leaf in El. discriminate.
Qed.

(** X4: after any calls on a map, [size()] is the number of elements a
    traversal from [begin()] to [end()] visits, and the traversal meets no
    key twice. *)
Theorem size_counts_traversal (ops : list operation) :
  let m := run ops (empty_map : map) in
  exists visited,
    traverse (size m) m = Some visited /\
    length visited = size m /\
    NoDup (keys visited).
Proof.
  intros m. assert (C : consistent m = true) by apply built_consistent.
  exists (to_list m). split; [now apply traverse_to_list|].
  split; [symmetry; now apply size_to_list|].
  apply Ordered_NoDup. now apply consistent_iff in C as (Hs & _).
Qed.

Lemma elements_set_second (t : BST.BNode Pair) (p : BST.path) (d : Pair) (v : V) :
  BST.data_at t p = Some d ->
  exists l1 l2,
    BST.elements t = l1 ++ d :: l2 /\
    BST.elements (set_second t p v) = l1 ++ make_pair (first d) v :: l2.
Proof.
  unfold BST.data_at. revert p.
  induction t as [|c l IHl x r IHr]; intros p;
    [destruct p as [|[] ?]; simpl; discriminate|].
  destruct p as [|[] q]; simpl.
  - intros [= ->]. exists (BST.elements l), (BST.elements r). auto.
  - intros Hq. destruct (IHl q Hq) as (l1 & l2 & E1 & E2).
    exists l1, (l2 ++ x :: BST.elements r). rewrite E1, E2.
    split; repeat (rewrite <- app_assoc; simpl); reflexivity.
  - intros Hq. destruct (IHr q Hq) as (l1 & l2 & E1 & E2).
    exists (BST.elements l ++ x :: l1), l2. rewrite E1, E2.
    split; repeat (rewrite <- app_assoc; simpl); reflexivity.
Qed.

Lemma store_frame (m : map) (p : BST.path) (d : Pair) (v : V) (k : K) :
  BST.data_at (BST.root (bst m)) p = Some d -> k <> first d ->
  value_of (snd (store (node_second (Some p)) v m)) k = value_of m k.
Proof.
  intros Hd Hk. destruct (elements_set_second _ p d v Hd) as (l1 & l2 & E1 & E2).
  unfold value_of, to_list. simpl. rewrite E1, E2.
  rewrite !lookup_skip; trivial; simpl; congruence.
Qed.

(** X5: [m[k] = v] stores v under k whether or not k was stored before, leaves
    every other key as it was, and grows the map by one element exactly when
    k was absent. *)
Theorem subscript_assignment_upserts (m : map) (k : K) (v : V) :
  consistent m = true ->
  let m' := perform (call_assign k v) m in
  value_of m' k = Some v /\
  (forall k', k' <> k -> value_of m' k' = value_of m k') /\
  size m' = match value_of m k with
            | Some _ => size m
            | None => S (size m)
            end /\
  consistent m' = true.
Proof.
  intros C m'.
  assert (Hsub : exists p m1 d,
             subscript k m = (Return (node_second (Some p)), m1) /\
             consistent m1 = true /\
             BST.find_path (BST.root (bst m1)) (Pair_of_key k) = Some p /\
             BST.data_at (BST.root (bst m1)) p = Some d /\ first d = k /\
             (forall k', k' <> k -> value_of m1 k' = value_of m k') /\
             size m1 = match value_of m k with
                       | Some _ => size m
                       | None => S (size m)
                       end).
  { destruct (value_of m k) as [w|] eqn:Hv.
    - destruct (insert_old m (Pair_of_key k) w C Hv) as (p & E & Hf & Hd).
      apply subscript_as_insert in E. simpl in E, Hf, Hd.
      exists p, m, (make_pair k w). repeat split; trivial.
    - destruct (insert_new m (Pair_of_key k) C Hv)
        as (p & m1 & E & C1 & Hn & Hd & Hf & _ & Hk).
      apply subscript_as_insert in E. simpl in E, Hf, Hd, Hk.
      exists p, m1, (Pair_of_key k). repeat split; trivial. }
  destruct Hsub as (p & m1 & d & E & C1 & Hf & Hd & Hk & Hframe & Hsize).
  assert (Em : m' = snd (store (node_second (Some p)) v m1)).
  { unfold m', perform, bind. now rewrite E. }
  destruct (store_value m1 k p d v C1 Hf Hd) as (_ & _ & Hv' & Hs').
  rewrite Em. split; [exact Hv'|]. split.
  - intros k' Hk'. rewrite store_frame with (d := d); [now apply Hframe|trivial|congruence].
  - split; [now rewrite Hs'|now apply store_consistent].
Qed.

(** X6: [insert] reports [true] exactly when the key was absent; then the size
    grows by one and the pair is stored, otherwise nothing changes.  Either
    way the iterator handed back is where [find] lands, at the element
    stored under the key. *)
Theorem insert_reports_growth (m : map) (rhs : Pair) :
  consistent m = true ->
  exists i m',
    insert rhs m =
      (Return (i, match value_of m (first rhs) with
                  | Some _ => false
                  | None => true
                  end), m') /\
    size m' = match value_of m (first rhs) with
              | Some _ => size m
              | None => S (size m)
              end /\
    find (first rhs) m' = (Return i, m') /\
    dereference m' i =
      Some (make_pair (first rhs)
              match value_of m (first rhs) with
              | Some v => v
              | None => second rhs
              end) /\
    (forall k, k <> first rhs -> value_of m' k = value_of m k) /\
    consistent m' = true.
Proof.
  intros C. destruct (value_of m (first rhs)) as [w|] eqn:Hv.
  - destruct (insert_old m rhs w C Hv) as (p & E & Hf & Hd).
    exists {| it := {| BST.pNode := Some p |} |}, m.
    repeat split; trivial. unfold find, BST.find. now rewrite Hf.
  - destruct (insert_new m rhs C Hv)
      as (p & m' & E & C' & Hn & Hd & Hf & _ & Hk).
    exists {| it := {| BST.pNode := Some p |} |}, m'.
    repeat split; trivial.
    + unfold find, BST.find. now rewrite Hf.
    + unfold dereference, BST.dereference. simpl. rewrite Hd. now destruct rhs.
Qed.

End Further.

Section Removal.
Context {K V : Type} `{Comparable K} `{DefaultConstructible V}.
Import Map.
#[local] Abbreviation map := (Map.map K V).
#[local] Abbreviation Pair := (Pair K V).

Lemma Ordered_nth_unique (l : list Pair) (a b : nat) (e : Pair) :
  Ordered l -> nth_error l a = Some e -> nth_error l b = Some e -> a = b.
Proof.
  intros Hs Ha Hb. apply Ordered_NoDup in Hs.
  rewrite NoDup_nth_error in Hs. apply Hs.
  - rewrite length_map. apply nth_error_Some. congruence.
  - now rewrite (map_nth_error first _ _ Ha), (map_nth_error first _ _ Hb).
Qed.

Lemma firstn_length_app {A : Type} (l1 l2 : list A) :
  firstn (length l1) (l1 ++ l2) = l1.
Proof. induction l1 as [|a l1 IH]; simpl; [now destruct l2|now rewrite IH]. Qed.

Lemma nth_error_middle {A : Type} (l1 l2 : list A) (d : A) :
  nth_error (l1 ++ d :: l2) (S (length l1)) = nth_error l2 0.
Proof. induction l1 as [|a l1 IH]; simpl; trivial. Qed.

Lemma filter_smaller (l1 l2 : list Pair) (d : Pair) :
  Ordered (l1 ++ d :: l2) ->
  filter (fun e => lt_key (first e) (first d)) (l1 ++ d :: l2) = l1.
Proof.
  intros Hs. apply Ordered_app_cons in Hs as (_ & _ & F1 & F2).
  rewrite filter_app. simpl. rewrite lt_key_irrefl.
  assert (E1 : filter (fun e => lt_key (first e) (first d)) l1 = l1).
  { clear F2. induction l1 as [|a l1 IH]; simpl; trivial.
    inversion F1 as [|? ? Ha F1']; subst. unfold lt_pair, pair_lt in Ha.
    now rewrite Ha, IH. }
  assert (E2 : filter (fun e => lt_key (first e) (first d)) l2 = []).
  { clear F1 E1. induction l2 as [|a l2 IH]; simpl; trivial.
    inversion F2 as [|? ? Ha F2']; subst. apply lt_pair_asym in Ha.
    unfold pair_lt in Ha. now rewrite Ha, IH. }
  rewrite E1, E2. apply app_nil_r.
Qed.

(** The tree's [erase] at a node: what is left and where the returned
    iterator points. *)
Lemma tree_erase_next (b : BST.BST Pair) (p : BST.path) (d : Pair) :
  Ordered (BST.elements (BST.root b)) ->
  BST.numElements b = BST.count (BST.root b) ->
  BST.data_at (BST.root b) p = Some d ->
  exists l1 l2 next b',
    BST.erase b {| BST.pNode := Some p |} = (next, b') /\
    BST.elements (BST.root b) = l1 ++ d :: l2 /\
    length l1 = BST.rank (BST.root b) p /\
    BST.elements (BST.root b') = l1 ++ l2 /\
    BST.numElements b' = BST.count (BST.root b') /\
    S (BST.numElements b') = BST.numElements b /\
    BST.dereference (BST.root b)
      (BST.increment (BST.root b) {| BST.pNode := Some p |}) = nth_error l2 0 /\
    match l2 with
    | [] => next = {| BST.pNode := None |}
    | e :: _ =>
        exists q, next = {| BST.pNode := Some q |} /\
                  BST.data_at (BST.root b') q = Some e /\
                  BST.rank (BST.root b') q = length l1
    end.
Proof.
  intros Hs Hc Hd.
  destruct (tree_erase_node b p d Hc Hd) as (l1 & l2 & E1 & Hlen & E2 & Hc' & Hn).
  assert (Hvalid : BST.data_at (BST.root b) p <> None) by congruence.
  pose proof (successor_rank (BST.root b) p Hvalid) as Hsucc.
  assert (Hnext : BST.dereference (BST.root b)
                    (BST.increment (BST.root b) {| BST.pNode := Some p |})
                  = nth_error l2 0).
  { unfold BST.dereference, BST.increment. simpl.
    destruct (BST.successor (BST.root b) p) as [q|].
    - destruct Hsucc as (Hr & Hq).
      destruct (BST.data_at (BST.root b) q) as [e|] eqn:He; [|congruence].
      pose proof (data_at_rank _ _ _ He) as Hnth.
      rewrite Hr, <- Hlen, E1, nth_error_middle in Hnth.
      destruct l2; simpl in Hnth |- *; congruence.
    - rewrite count_elements, E1, length_app in Hsucc. simpl in Hsucc.
      destruct l2; [reflexivity|simpl in Hsucc; lia]. }
  destruct (BST.erase b {| BST.pNode := Some p |}) as [next b'] eqn:Eb.
  simpl in E2, Hc', Hn.
  exists l1, l2, next, b'. repeat split; trivial.
  unfold BST.erase in Eb. simpl in Eb. rewrite Hd in Eb.
  change (BST.dereference (BST.root b)
            {| BST.pNode := BST.successor (BST.root b) p |})
    with (BST.dereference (BST.root b)
            (BST.increment (BST.root b) {| BST.pNode := Some p |})) in Eb.
  rewrite Hnext in Eb. injection Eb as <- <-. simpl in E2.
  destruct l2 as [|e l2]; simpl; [reflexivity|].
  assert (Hs' : Ordered (BST.elements
                  (BST.paint BST.Black (BST.remove_at p (BST.root b))))).
  { rewrite E2. rewrite E1 in Hs. eapply Ordered_app_drop; eassumption. }
  assert (Hin : In e (BST.elements
                  (BST.paint BST.Black (BST.remove_at p (BST.root b))))).
  { rewrite E2. apply in_or_app. simpl. auto. }
  destruct (find_path_complete _ e e Hs' Hin eq_refl) as (q & Hq & Hdq).
  exists q. rewrite Hq. repeat split; trivial.
  pose proof (data_at_rank _ _ _ Hdq) as Hnth.
  apply (Ordered_nth_unique _ _ _ e Hs' Hnth).
  rewrite E2, nth_error_app2, Nat.sub_diag by lia. reflexivity.
Qed.

(** X7: [erase(it)] at an element removes that element and no other, and the
    iterator it returns points, in the map as it is afterwards, at the
    element that followed the erased one, or is [end()] when there was
    none.  [erase(end())] does nothing. *)
Theorem erase_returns_successor (m : map) (i : iterator) (d : Pair) :
  consistent m = true ->
  dereference m i = Some d ->
  (exists next m',
     erase_iterator i m = (Return next, m') /\
     to_list m' =
       filter (fun e => negb (eq_key (first e) (first d))) (to_list m) /\
     S (size m') = size m /\
     consistent m' = true /\
     dereference m' next = dereference m (snd (pre_increment m i)) /\
     (dereference m' next = None -> next = {| it := BST.end_ (bst m') |})) /\
  erase_iterator {| it := BST.end_ (bst m) |} m =
    (Return {| it := BST.end_ (bst m) |}, m).
Proof.
  intros C Hd. split; [|destruct m; reflexivity].
  apply consistent_iff in C as (Hs & Hc).
  destruct i as [[[p|]]]; [|discriminate].
  unfold dereference, BST.dereference in Hd. simpl in Hd.
  destruct (tree_erase_next (bst m) p d Hs Hc Hd)
    as (l1 & l2 & next & b' & E & E1 & Hlen & E2 & Hc' & Hn & Hnx & Hq).
  exists {| it := next |}, {| bst := b' |}.
  unfold erase_iterator. simpl. rewrite E.
  unfold to_list in *. simpl.
  assert (Hs' : Ordered (BST.elements (BST.root b'))).
  { rewrite E2. rewrite E1 in Hs. eapply Ordered_app_drop; eassumption. }
  split; [reflexivity|]. split.
  { rewrite E1, E2. symmetry. apply filter_drops. now rewrite <- E1. }
  split; [exact Hn|]. split; [apply consistent_iff; auto|].
  unfold dereference, pre_increment. simpl. rewrite Hnx.
  destruct l2 as [|e l2].
  - subst next. simpl. auto.
  - destruct Hq as (q & -> & Hdq & _). unfold BST.dereference. simpl.
    rewrite Hdq. split; [reflexivity|discriminate].
Qed.

Lemma erase_range_done (fuel : nat) (m : map) (i : iterator) :
  erase_range fuel i i m = (Return (Some i), m).
Proof.
  assert (E : iterator_ne i i = false).
  { unfold iterator_ne, BST.iterator_ne, BST.iterator_eq.
    destruct (BST.pNode (it i)) as [p|]; trivial.
    assert (Hp : BST.path_eqb p p = true) by now apply path_eqb_eq.
    now rewrite Hp. }
  destruct fuel; simpl; now rewrite E.
Qed.

Lemma erase_range_tail (fuel : nat) (m : map) (p : BST.path) (d : Pair) :
  consistent m = true ->
  BST.data_at (BST.root (bst m)) p = Some d ->
  BST.count (BST.root (bst m)) - BST.rank (BST.root (bst m)) p <= fuel ->
  exists m',
    erase_range fuel {| it := {| BST.pNode := Some p |} |}
      {| it := {| BST.pNode := None |} |} m =
      (Return (Some {| it := {| BST.pNode := None |} |}), m') /\
    to_list m' = firstn (BST.rank (BST.root (bst m)) p) (to_list m) /\
    consistent m' = true.
Proof.
  revert m p d. induction fuel as [|fuel IH]; intros m p d C Hd Hfuel.
  - apply data_at_rank_lt in Hd. lia.
  - pose proof C as C0. apply consistent_iff in C as (Hs & Hc).
    destruct (tree_erase_next (bst m) p d Hs Hc Hd)
      as (l1 & l2 & next & b' & E & E1 & Hlen & E2 & Hc' & Hn & _ & Hq).
    assert (Hs' : Ordered (BST.elements (BST.root b'))).
    { rewrite E2. unfold to_list in Hs. rewrite E1 in Hs.
      eapply Ordered_app_drop; eassumption. }
    assert (C' : consistent {| bst := b' |} = true).
    { apply consistent_iff. auto. }
    cbn [erase_range]. unfold iterator_ne at 1, BST.iterator_ne, BST.iterator_eq.
    cbn [it BST.pNode negb]. unfold bind, erase_iterator. cbn [it]. rewrite E.
    destruct l2 as [|e l2].
    + subst next. rewrite erase_range_done. exists {| bst := b' |}.
      split; [reflexivity|]. split; [|exact C'].
      unfold to_list. simpl. rewrite E1, E2, <- Hlen, app_nil_r.
      symmetry. apply firstn_length_app.
    + destruct Hq as (q & -> & Hdq & Hrq).
      destruct (IH {| bst := b' |} q e C' Hdq) as (m' & Em & El & Cm).
      { simpl. rewrite Hrq.
        rewrite !count_elements, E2 in *. rewrite E1 in Hfuel.
        rewrite length_app in *. simpl in *. lia. }
      exists m'. split; [exact Em|]. split; [|exact Cm].
      rewrite El. unfold to_list. simpl. rewrite Hrq, E1, E2, <- Hlen.
      now rewrite !firstn_length_app.
Qed.

(** X8: [erase(first, end())] with [first] at an element removes that element
    and all that follow it: the elements with smaller keys stay, the result
    is [end()]; from [begin()] on, the map is left empty.  [size()] steps
    of the loop suffice. *)
Theorem erase_range_to_end (m : map) (i : iterator) (d : Pair) (fuel : nat) :
  consistent m = true ->
  dereference m i = Some d ->
  size m <= fuel ->
  exists m',
    erase_range fuel i {| it := BST.end_ (bst m) |} m =
      (Return (Some {| it := BST.end_ (bst m') |}), m') /\
    to_list m' = filter (fun e => lt_key (first e) (first d)) (to_list m) /\
    consistent m' = true /\
    (BST.iterator_eq (it i) (BST.begin (bst m)) = true -> size m' = 0).
Proof.
  intros C Hd Hfuel. pose proof C as C0.
  apply consistent_iff in C as (Hs & Hc).
  destruct i as [[[p|]]]; [|discriminate].
  unfold dereference, BST.dereference in Hd. simpl in Hd.
  destruct (erase_range_tail fuel m p d C0 Hd) as (m' & E & El & C').
  { unfold size, BST.size in Hfuel. lia. }
  exists m'. split; [exact E|].
  destruct (elements_remove_at _ _ _ Hd) as (l1 & l2 & E1 & Hlen & _).
  assert (Hl1 : to_list m' = l1).
  { rewrite El. unfold to_list. rewrite E1, <- Hlen. apply firstn_length_app. }
  split.
  { rewrite Hl1. unfold to_list in *. rewrite E1. symmetry.
    apply filter_smaller. now rewrite <- E1. }
  split; [exact C'|].
  unfold BST.iterator_eq, BST.begin. simpl.
  destruct (BST.leftmost (BST.root (bst m))) as [q|] eqn:Eq; [|discriminate].
  intros Hpq. apply path_eqb_eq in Hpq. subst q.
  destruct (leftmost_first _ _ Eq) as (Hr & _).
  rewrite (size_to_list m' C'), Hl1, Hlen, Hr. reflexivity.
Qed.

(** X9: inserting a pair with a new key and erasing the key again gives back
    the elements and the size the map had. *)
Theorem insert_then_erase (m : map) (k : K) (v : V) :
  consistent m = true -> value_of m k = None ->
  exists m2,
    erase k (snd (insert (make_pair k v) m)) = (Return 1, m2) /\
    to_list m2 = to_list m /\ size m2 = size m /\ consistent m2 = true.
Proof.
  intros C Hv. pose proof C as C0. apply consistent_iff in C as (Hs & Hc).
  assert (Hno : forall d, In d (to_list m) -> first d <> first (make_pair k v)).
  { apply lookup_None. exact Hv. }
  destruct (tree_insert_absent (bst m) (make_pair k v) Hs Hc Hno)
    as (p & b' & l1 & l2 & E & E1 & E2 & Hs' & Hc' & Hn & _).
  destruct (insert_new m (make_pair k v) C0 Hv)
    as (p' & m1 & Ei & C1 & Hsize & _ & _ & Hv1 & _).
  assert (Em : m1 = {| bst := b' |}).
  { unfold insert in Ei. rewrite E in Ei. now injection Ei as _ <-. }
  rewrite Ei. simpl snd. simpl in Hv1.
  destruct (erase_present m1 k v C1 Hv1) as (m2 & Ee & El & Hs2 & _ & _ & C2).
  exists m2. split; [exact Ee|]. split.
  - rewrite El, Em. unfold to_list. simpl. rewrite E1, E2.
    apply (filter_drops l1 l2 (make_pair k v)). now rewrite <- E2.
  - split; [lia|exact C2].
Qed.

(** X10: a second [erase(k)] always returns 0 and leaves the map as the first
    one left it. *)
Theorem erase_twice (m : map) (k : K) :
  consistent m = true ->
  erase k (snd (erase k m)) = (Return 0, snd (erase k m)).
Proof.
  intros C. apply erase_absent.
  destruct (value_of m k) as [v|] eqn:Hv.
  - now destruct (erase_present m k v C Hv) as (m' & -> & _ & _ & Hv' & _).
  - now rewrite (erase_absent m k Hv).
Qed.

(** X11: from an iterator at an element, [++] followed by [--] comes back to the
    element unless [++] reached [end()], and [--] followed by [++] comes
    back to it unless the element was the first one. *)
Theorem increment_decrement_inverse (m : map) (self : iterator) (d : Pair) :
  dereference m self = Some d ->
  (dereference m (snd (pre_increment m self)) <> None ->
   snd (pre_decrement m (snd (pre_increment m self))) = self) /\
  (dereference m (snd (pre_decrement m self)) <> None ->
   snd (pre_increment m (snd (pre_decrement m self))) = self).
Proof.
  destruct self as [[[p|]]]; [|discriminate].
  unfold dereference, BST.dereference, pre_increment, pre_decrement,
    BST.increment, BST.decrement. simpl. intros Hd.
  assert (Hp : BST.data_at (BST.root (bst m)) p <> None) by congruence.
  split.
  - destruct (BST.successor (BST.root (bst m)) p) as [q|] eqn:E; [|congruence].
    intros _. now rewrite (predecessor_successor _ _ _ Hp E).
  - destruct (BST.predecessor (BST.root (bst m)) p) as [q|] eqn:E; [|congruence].
    intros _. now rewrite (successor_predecessor _ _ _ Hp E).
Qed.

Lemma map_eta (m : map) :
  {| bst := {| BST.root := BST.root (bst m);
               BST.numElements := BST.numElements (bst m) |} |} = m.
Proof. now destruct m as [[r n]]. Qed.

(** X12: [swap] exchanges what the two maps hold and touches no other map;
    swapping a map with itself changes nothing, and a second swap undoes
    the first. *)
Theorem swap_exchanges (h : @objects K V) (a b : nat) :
  exists h',
    swap a b h = (Return tt, h') /\
    h' a = h b /\ h' b = h a /\
    (forall c, c <> a -> c <> b -> h' c = h c) /\
    exists h'',
      swap a b h' = (Return tt, h'') /\ forall c, h'' c = h c.
Proof.
  assert (Hswap : forall g : @objects K V,
             exists g', swap a b g = (Return tt, g') /\
                        forall c, g' c = if Nat.eqb c b then g a
                                         else if Nat.eqb c a then g b else g c).
  { intros g. eexists. split; [reflexivity|].
    intros c. unfold update. simpl.
    destruct (Nat.eqb c b) eqn:Ecb.
    - apply map_eta.
    - destruct (Nat.eqb c a) eqn:Eca; trivial.
      destruct (Nat.eqb b a) eqn:Eba.
      + apply Nat.eqb_eq in Eba, Eca. subst. rewrite Nat.eqb_refl in Ecb.
        discriminate.
      + apply map_eta. }
  destruct (Hswap h) as (h' & E' & Hh').
  destruct (Hswap h') as (h'' & E'' & Hh'').
  exists h'. split; [exact E'|].
  assert (Ha : h' a = h b).
  { rewrite Hh'. rewrite Nat.eqb_refl.
    destruct (Nat.eqb a b) eqn:E; trivial. apply Nat.eqb_eq in E. now subst. }
  assert (Hb : h' b = h a) by (rewrite Hh'; now rewrite Nat.eqb_refl).
  split; [exact Ha|]. split; [exact Hb|]. split.
  - intros c Hca Hcb. rewrite Hh'. apply Nat.eqb_neq in Hca, Hcb.
    now rewrite Hcb, Hca.
  - exists h''. split; [exact E''|]. intros c. rewrite Hh''.
    destruct (Nat.eqb c b) eqn:Ecb.
    + apply Nat.eqb_eq in Ecb. subst c. exact Ha.
    + destruct (Nat.eqb c a) eqn:Eca.
      * apply Nat.eqb_eq in Eca. subst c. exact Hb.
      * rewrite Hh'. now rewrite Ecb, Eca.
Qed.

End Removal.

(** * The further properties at work on the map [fruit] *)

Lemma insert_list_keeps_first_witness :
  let il := [make_pair 3 99; make_pair 4 40; make_pair 4 41] in
  (Map.value_of (snd (Map.insert_list il fruit)) 4 = Some 40 /\
   4 <= Map.size (snd (Map.insert_list il fruit)) <= 7) /\
  (Map.value_of (snd (Map.insert_list il fruit)) 3 = Some 30 /\
   4 <= Map.size (snd (Map.insert_list il fruit)) <= 7).
Proof.
  split.
  - refine (insert_list_keeps_first
              [make_pair 3 99; make_pair 4 40; make_pair 4 41] fruit 4 _).
    reflexivity.
  - refine (insert_list_keeps_first
              [make_pair 3 99; make_pair 4 40; make_pair 4 41] fruit 3 _).
    reflexivity.
Defined.

Lemma empty_iff_begin_is_end_witness :
  (Map.empty fruit =
     Map.iterator_eq {| Map.it := BST.begin (Map.bst fruit) |}
                     {| Map.it := BST.end_ (Map.bst fruit) |} /\
   (Map.empty fruit = true <-> Map.to_list fruit = [])) /\
  (Map.empty (Map.empty_map : Map.map nat nat) =
     Map.iterator_eq {| Map.it := {| BST.pNode := None |} |}
                     {| Map.it := {| BST.pNode := None |} |} /\
   (Map.empty (Map.empty_map : Map.map nat nat) = true <->
    Map.to_list (Map.empty_map : Map.map nat nat) = [])).
Proof.
  split.
  - refine (empty_iff_begin_is_end fruit _ _ _ _ _); reflexivity.
  - refine (empty_iff_begin_is_end (Map.empty_map : Map.map nat nat)
              _ _ _ _ _); reflexivity.
Defined.

Lemma subscript_assignment_upserts_witness :
  (let m' := Map.perform (Map.call_assign 3 77) fruit in
   Map.value_of m' 3 = Some 77 /\
   (forall k', k' <> 3 -> Map.value_of m' k' = Map.value_of fruit k') /\
   Map.size m' = 4 /\ Map.consistent m' = true) /\
  (let m' := Map.perform (Map.call_assign 4 77) fruit in
   Map.value_of m' 4 = Some 77 /\
   (forall k', k' <> 4 -> Map.value_of m' k' = Map.value_of fruit k') /\
   Map.size m' = 5 /\ Map.consistent m' = true).
Proof.
  split.
  - refine (subscript_assignment_upserts fruit 3 77 _). reflexivity.
  - refine (subscript_assignment_upserts fruit 4 77 _). reflexivity.
Defined.

Lemma insert_reports_growth_witness :
  (exists i m',
     Map.insert (make_pair 5 99) fruit = (Return (i, false), m') /\
     Map.size m' = 4 /\
     Map.find 5 m' = (Return i, m') /\
     Map.dereference m' i = Some (make_pair 5 50) /\
     (forall k, k <> 5 -> Map.value_of m' k = Map.value_of fruit k) /\
     Map.consistent m' = true) /\
  (exists i m',
     Map.insert (make_pair 4 40) fruit = (Return (i, true), m') /\
     Map.size m' = 5 /\
     Map.find 4 m' = (Return i, m') /\
     Map.dereference m' i = Some (make_pair 4 40) /\
     (forall k, k <> 4 -> Map.value_of m' k = Map.value_of fruit k) /\
     Map.consistent m' = true).
Proof.
  split.
  - refine (insert_reports_growth fruit (make_pair 5 99) _). reflexivity.
  - refine (insert_reports_growth fruit (make_pair 4 40) _). reflexivity.
Defined.

Lemma erase_returns_successor_witness :
  exists next m',
    Map.erase_iterator {| Map.it := BST.find (Map.bst fruit) (make_pair 3 0) |}
      fruit = (Return next, m') /\
    Map.to_list m' = [make_pair 1 10; make_pair 5 50; make_pair 8 80] /\
    S (Map.size m') = 4 /\
    Map.consistent m' = true /\
    Map.dereference m' next = Some (make_pair 5 50) /\
    (Map.dereference m' next = None ->
     next = {| Map.it := BST.end_ (Map.bst m') |}).
Proof.
  refine (proj1 (erase_returns_successor fruit
                   {| Map.it := BST.find (Map.bst fruit) (make_pair 3 0) |}
                   (make_pair 3 30) _ _));
    reflexivity.
Defined.

Lemma erase_range_to_end_witness :
  exists m',
    Map.erase_range 4
      {| Map.it := BST.find (Map.bst fruit) (make_pair 5 0) |}
      {| Map.it := BST.end_ (Map.bst fruit) |} fruit =
      (Return (Some {| Map.it := BST.end_ (Map.bst m') |}), m') /\
    Map.to_list m' = [make_pair 1 10; make_pair 3 30] /\
    Map.consistent m' = true /\
    (BST.iterator_eq (BST.find (Map.bst fruit) (make_pair 5 0))
       (BST.begin (Map.bst fruit)) = true -> Map.size m' = 0).
Proof.
  refine (erase_range_to_end fruit
            {| Map.it := BST.find (Map.bst fruit) (make_pair 5 0) |}
            (make_pair 5 50) 4 _ _ _);
    [reflexivity | reflexivity | vm_compute; lia].
Defined.

Lemma insert_then_erase_witness :
  exists m2,
    Map.erase 4 (snd (Map.insert (make_pair 4 40) fruit)) = (Return 1, m2) /\
    Map.to_list m2 = Map.to_list fruit /\ Map.size m2 = 4 /\
    Map.consistent m2 = true.
Proof.
  refine (insert_then_erase fruit 4 40 _ _); reflexivity.
Defined.

Lemma erase_twice_witness :
  Map.erase 3 (snd (Map.erase 3 fruit)) = (Return 0, snd (Map.erase 3 fruit)).
Proof.
  refine (erase_twice fruit 3 _). reflexivity.
Defined.

Lemma increment_decrement_inverse_witness :
  let self := {| Map.it := {| BST.pNode := Some [] |} |} in
  (Map.dereference fruit (snd (Map.pre_increment fruit self)) <> None ->
   snd (Map.pre_decrement fruit (snd (Map.pre_increment fruit self))) = self) /\
  (Map.dereference fruit (snd (Map.pre_decrement fruit self)) <> None ->
   snd (Map.pre_increment fruit (snd (Map.pre_decrement fruit self))) = self).
Proof.
  refine (increment_decrement_inverse fruit
            {| Map.it := {| BST.pNode := Some [] |} |} (make_pair 3 30) _).
  reflexivity.
Defined.
